(** * videoq: a single-producer / multi-consumer ring of video frames

    A shallow embedding of [src/videoq/videoq.c] and the properties of its
    segment table, borrow accounting and two-phase send.

    The C code keeps one heap block ([struct Inner]) shared by the sender and
    all receivers.  Here the block is a record threaded through a small state
    monad; a call either returns, or waits forever on the mutex, or leaves
    defined behaviour. *)

From Stdlib Require Import ZArith Lia.
From Stdlib Require Import Init.Byte.
From stdpp Require Import base tactics option numbers list.

Set Default Proof Using "Type".

(** ** Constants *)

Definition MAX_SEGMENTS : nat := 16.

Definition FLAG_CONFLATION : Z := 1.
Definition FLAG_NO_SENDER : Z := 2.

Definition NO_RECEIVERS : Z := 1.
Definition SENDER_CLOSED : Z := 2.
Definition MAX_RECEIVERS : Z := 3.

(** ** Data structures *)

(** [pthread_mutex_t]: free, held, or passed to [pthread_mutex_destroy]. *)
Inductive mutex : Type :=
| Unlocked
| Locked
| Destroyed.

(** One entry of [segments]: a NULL pointer, a buffer fresh from [malloc]
    (its bytes are indeterminate until the first [memcpy]), a buffer holding
    bytes, or a buffer already given to [free]. *)
Inductive segment : Type :=
| SegNull
| SegUninit
| SegBytes (payload : list byte)
| SegFreed.

#[global] Instance segment_inhabited : Inhabited segment := populate SegNull.

(** [struct Inner].  [uint8_t] and [uint64_t] fields are integers in [Z]
    with the wrap-around of each arithmetic operation written out where it
    happens; [size_t] fields only ever hold indices and sizes of the
    sixteen-entry arrays and are naturals. *)
Record Inner : Type := mkInner {
  lock : mutex;
  segments : list segment;
  timestamps : list Z;
  num_borrows : list Z;
  num_segments : nat;
  bufsize : nat;
  last_written_block : nat;
  prev_written_block : nat;
  num_receivers : Z;
  flags : Z
}.

(** The handles hold a pointer to the one shared [Inner]; that pointer is the
    state of the monad below, so only the remaining fields appear. *)
Record Sender : Type := mkSender {
  sender_bufsize : nat
}.

(** [index], [data_ptr] and [timestamp] are indeterminate until the first
    successful [start_recv]: [None].  [data_ptr = Some i] is the address of
    the buffer that [segments[i]] points to. *)
Record Receiver : Type := mkReceiver {
  receiver_bufsize : nat;
  index : option nat;
  data_ptr : option nat;
  timestamp : option Z
}.

Record SenderReceiverPair : Type := mkPair {
  sender : Sender;
  receiver : Receiver
}.

(** *** Field updates *)

Definition set_lock (v : mutex) (q : Inner) : Inner :=
  mkInner v (segments q) (timestamps q) (num_borrows q) (num_segments q)
    (bufsize q) (last_written_block q) (prev_written_block q)
    (num_receivers q) (flags q).

Definition set_segments (v : list segment) (q : Inner) : Inner :=
  mkInner (lock q) v (timestamps q) (num_borrows q) (num_segments q)
    (bufsize q) (last_written_block q) (prev_written_block q)
    (num_receivers q) (flags q).

Definition set_timestamps (v : list Z) (q : Inner) : Inner :=
  mkInner (lock q) (segments q) v (num_borrows q) (num_segments q)
    (bufsize q) (last_written_block q) (prev_written_block q)
    (num_receivers q) (flags q).

Definition set_num_borrows (v : list Z) (q : Inner) : Inner :=
  mkInner (lock q) (segments q) (timestamps q) v (num_segments q)
    (bufsize q) (last_written_block q) (prev_written_block q)
    (num_receivers q) (flags q).

Definition set_num_segments (v : nat) (q : Inner) : Inner :=
  mkInner (lock q) (segments q) (timestamps q) (num_borrows q) v
    (bufsize q) (last_written_block q) (prev_written_block q)
    (num_receivers q) (flags q).

Definition set_last_written_block (v : nat) (q : Inner) : Inner :=
  mkInner (lock q) (segments q) (timestamps q) (num_borrows q)
    (num_segments q) (bufsize q) v (prev_written_block q)
    (num_receivers q) (flags q).

Definition set_prev_written_block (v : nat) (q : Inner) : Inner :=
  mkInner (lock q) (segments q) (timestamps q) (num_borrows q)
    (num_segments q) (bufsize q) (last_written_block q) v
    (num_receivers q) (flags q).

Definition set_num_receivers (v : Z) (q : Inner) : Inner :=
  mkInner (lock q) (segments q) (timestamps q) (num_borrows q)
    (num_segments q) (bufsize q) (last_written_block q)
    (prev_written_block q) v (flags q).

Definition set_flags (v : Z) (q : Inner) : Inner :=
  mkInner (lock q) (segments q) (timestamps q) (num_borrows q)
    (num_segments q) (bufsize q) (last_written_block q)
    (prev_written_block q) (num_receivers q) v.

(** ** The monad of ring operations *)

(** What a call does: it returns a value, or it never comes back from
    [pthread_mutex_lock] because the mutex is held and nobody releases it, or
    it has undefined behaviour in C (a destroyed mutex, an indeterminate or
    out-of-bounds index, a NULL or freed buffer). *)
Inductive outcome (A : Type) : Type :=
| Returns (a : A)
| Blocks
| Undefined.
Arguments Returns {A} a.
Arguments Blocks {A}.
Arguments Undefined {A}.

Definition RingM (A : Type) : Type := Inner → outcome (A * Inner).

#[global] Instance RingM_ret : MRet RingM := λ A a q, Returns (a, q).

#[global] Instance RingM_bind : MBind RingM := λ A B f m q,
  match m q with
  | Returns (a, q') => f a q'
  | Blocks => Blocks
  | Undefined => Undefined
  end.

Definition get : RingM Inner := λ q, Returns (q, q).
Definition modify (f : Inner → Inner) : RingM unit := λ q, Returns (tt, f q).
Definition undefined {A : Type} : RingM A := λ _, Undefined.

(** [uint8_t] arithmetic. *)
Definition u8 (z : Z) : Z := z mod 256.

(** ** The mutex *)

(** The mutex is created with default attributes: locking it while it is
    held waits for an unlock. *)
Definition pthread_mutex_lock : RingM unit := λ q,
  match lock q with
  | Unlocked => Returns (tt, set_lock Locked q)
  | Locked => Blocks
  | Destroyed => Undefined
  end.

Definition pthread_mutex_unlock : RingM unit := λ q,
  match lock q with
  | Locked => Returns (tt, set_lock Unlocked q)
  | _ => Undefined
  end.

(** ** Internal functions *)

(** [init_ringq]: the caller has stored [bufsize]; every other field is
    assigned here. *)
Definition init_ringq (bufsize : nat) : Inner :=
  {| lock := Unlocked;
     segments := <[2:=SegUninit]> (<[1:=SegUninit]> (<[0:=SegUninit]>
                   (replicate MAX_SEGMENTS SegNull)));
     timestamps := replicate MAX_SEGMENTS 0%Z;
     num_borrows := replicate MAX_SEGMENTS 0%Z;
     num_segments := 3;
     bufsize := bufsize;
     last_written_block := 0;
     prev_written_block := 1;
     num_receivers := 1;
     flags := 0 |}.

(** The [for] loop of [_get_free_writer], entered at [i] with
    [fuel = num_segments - i] iterations left.  Running out of iterations
    leaves [free_writer] at its initial value [last_written_block]; [break]
    leaves it at [i].  A read of [num_borrows[i]] is in bounds whenever
    [num_segments <= MAX_SEGMENTS]. *)
Fixpoint scan_free_writer (ringq : Inner) (i fuel : nat) : nat :=
  match fuel with
  | O => last_written_block ringq
  | S fuel' =>
      if decide (i = last_written_block ringq)
      then scan_free_writer ringq (S i) fuel'
      else if decide (num_borrows ringq !!! i = 0%Z)
      then i
      else scan_free_writer ringq (S i) fuel'
  end.

Definition _get_free_writer (ringq : Inner) : nat :=
  scan_free_writer ringq 0 (num_segments ringq).

(** [flags & FLAG]: is the bit set? *)
Definition flag_set (flag : Z) (ringq : Inner) : bool :=
  negb (Z.land (flags ringq) flag =? 0)%Z.

Definition _get_recv_index (ringq : Inner) : nat :=
  if flag_set FLAG_CONFLATION ringq
  then last_written_block ringq
  else prev_written_block ringq.

(** [_new_segment]: a store at [segments[MAX_SEGMENTS]] or beyond would be
    out of bounds. *)
Definition _new_segment : RingM Z :=
  ringq ← get;
  if decide (num_segments ringq = MAX_SEGMENTS) then mret MAX_RECEIVERS
  else if decide (num_segments ringq < MAX_SEGMENTS) then
    modify (λ q, set_num_segments (S (num_segments q))
                   (set_segments
                      (<[num_segments q:=SegUninit]> (segments q)) q));;
    mret 0%Z
  else undefined.

(** [free_ringq]: every active segment is freed ([free(NULL)] does
    nothing), the mutex destroyed and the block released. *)
Definition free_buffers (n : nat) (segs : list segment) : list segment :=
  imap (λ i s, if decide (i < n)
               then match s with SegNull => SegNull | _ => SegFreed end
               else s) segs.

Definition free_ringq : RingM unit :=
  modify (λ q, set_lock Destroyed
                 (set_segments (free_buffers (num_segments q) (segments q)) q)).

(** ** Public functions *)

Definition new_ringq (bufsize : nat) : SenderReceiverPair * Inner :=
  let ringq := init_ringq bufsize in
  ({| sender := {| sender_bufsize := bufsize |};
      receiver := {| receiver_bufsize := bufsize; index := None;
                     data_ptr := None; timestamp := None |} |},
   ringq).

(** *** send, in its three parts

    [send] holds the mutex twice, around the choice of the segment and around
    its publication, and copies the frame in between with the mutex free.
    Other threads can run between the parts, so each is a function of its
    own and [send] is their sequence. *)

(** First critical section.  [inl e]: [send] returns the error [e] from
    here; [inr free_writer]: it goes on to write segment [free_writer]. *)
Definition send_select : RingM (Z + nat) :=
  pthread_mutex_lock;;
  ringq ← get;
  if decide (num_receivers ringq = 0%Z) then mret (inl NO_RECEIVERS)
  else
    let free_writer := _get_free_writer ringq in
    (if decide (free_writer = last_written_block ringq)
     then modify (λ q, set_flags (Z.lor (flags q) FLAG_CONFLATION) q)
     else modify (λ q, set_prev_written_block (last_written_block q) q));;
    pthread_mutex_unlock;;
    mret (inr free_writer).

(** [memcpy(ringq->segments[free_writer], data, ringq->bufsize)] and the
    store of the timestamp, both outside the mutex.  [data] must hold at
    least [bufsize] bytes. *)
Definition send_copy (free_writer : nat) (data : list byte) (ts : Z)
  : RingM unit :=
  ringq ← get;
  match segments ringq !! free_writer with
  | Some SegUninit | Some (SegBytes _) =>
      if decide (bufsize ringq ≤ length data) then
        modify (λ q, set_timestamps (<[free_writer:=ts]> (timestamps q))
                       (set_segments
                          (<[free_writer:=SegBytes (take (bufsize q) data)]>
                             (segments q)) q))
      else undefined
  | _ => undefined
  end.

(** Second critical section.  [flags &= ~FLAG_CONFLATION] is computed on
    [int] and stored back into the [uint8_t]. *)
Definition send_publish (free_writer : nat) : RingM unit :=
  pthread_mutex_lock;;
  modify (λ q, set_flags (u8 (Z.land (flags q) (Z.lnot FLAG_CONFLATION)))
                 (set_last_written_block free_writer q));;
  pthread_mutex_unlock.

Definition send (sender : Sender) (data : list byte) (ts : Z) : RingM Z :=
  r ← send_select;
  match r with
  | inl e => mret e
  | inr free_writer =>
      send_copy free_writer data ts;;
      send_publish free_writer;;
      mret 0%Z
  end.

Definition free_sender (sender : Sender) : RingM unit :=
  pthread_mutex_lock;;
  modify (λ q, set_flags (Z.lor (flags q) FLAG_NO_SENDER) q);;
  ringq ← get;
  if decide (num_receivers ringq = 0%Z) then free_ringq
  else pthread_mutex_unlock.

(** [start_recv].  After the unlock the function reads [segments[index]]
    and [timestamps[index]] and stores them in the receiver. *)
Definition start_recv (receiver : Receiver) : RingM (Z * Receiver) :=
  pthread_mutex_lock;;
  ringq ← get;
  if flag_set FLAG_NO_SENDER ringq then
    pthread_mutex_unlock;;
    mret (SENDER_CLOSED, receiver)
  else
    let index := _get_recv_index ringq in
    if decide (index < MAX_SEGMENTS) then
      modify (λ q, set_num_borrows
                     (<[index:=u8 (num_borrows q !!! index + 1)]>
                        (num_borrows q)) q);;
      pthread_mutex_unlock;;
      ringq ← get;
      mret (0%Z,
            {| receiver_bufsize := receiver_bufsize receiver;
               index := Some index;
               data_ptr := match segments ringq !!! index with
                           | SegNull => None
                           | _ => Some index
                           end;
               timestamp := Some (timestamps ringq !!! index) |})
    else undefined.

Definition end_recv (receiver : Receiver) : RingM Z :=
  pthread_mutex_lock;;
  match index receiver with
  | Some i =>
      if decide (i < MAX_SEGMENTS) then
        modify (λ q, set_num_borrows
                       (<[i:=u8 (num_borrows q !!! i - 1)]> (num_borrows q))
                       q);;
        pthread_mutex_unlock;;
        mret 0%Z
      else undefined
  | None => undefined
  end.

(** [new_receiver] (the clone): the new handle and the value stored in
    [*error]. *)
Definition new_receiver (receiver : Receiver) : RingM (Receiver * Z) :=
  let new_receiver := {| receiver_bufsize := receiver_bufsize receiver;
                         index := None; data_ptr := None;
                         timestamp := None |} in
  pthread_mutex_lock;;
  error ← _new_segment;
  (if decide (error = 0%Z)
   then modify (λ q, set_num_receivers (u8 (num_receivers q + 1)) q)
   else mret tt);;
  pthread_mutex_unlock;;
  mret (new_receiver, error).

(** Modelled from the spec: the receiver's drop, which [videoq.c] does not
    contain.  Section 4.3: acquire [lock], decrement [num_receivers]; if
    NO_SENDER is set and [num_receivers == 0], call [destroy()]; otherwise
    release [lock]. *)
Definition drop_recv (receiver : Receiver) : RingM unit :=
  pthread_mutex_lock;;
  modify (λ q, set_num_receivers (u8 (num_receivers q - 1)) q);;
  ringq ← get;
  if flag_set FLAG_NO_SENDER ringq && bool_decide (num_receivers ringq = 0%Z)
  then free_ringq
  else pthread_mutex_unlock.

(** What a receiver sees through [data_ptr]. *)
Definition borrowed_payload (ringq : Inner) (receiver : Receiver)
  : option segment :=
  i ← data_ptr receiver; segments ringq !! i.

(** ** Threads and interleavings

    One thread owns the sender, one thread owns each receiver handle.  The
    mutex makes every critical section atomic; the copy of [send] runs
    between two of them.  A state of the whole system is the ring, the place
    the sender has reached inside [send], and the receiver handles handed
    out so far. *)

Inductive sender_pc : Type :=
| SenderIdle
| SenderCopying (free_writer : nat) (data : list byte) (ts : Z)
| SenderCopied (free_writer : nat)
| SenderGone.

(** A receiver handle: [borrowing] between a successful [start_recv] and the
    matching [end_recv]; [live] until it is dropped. *)
Record receiver_thread : Type := mkThread {
  handle : Receiver;
  borrowing : bool;
  live : bool
}.

Record System : Type := mkSystem {
  ring : Inner;
  sender_at : sender_pc;
  receivers : list receiver_thread
}.

(** The segment the sender has been handed and not yet published. *)
Definition write_target (s : System) : option nat :=
  match sender_at s with
  | SenderCopying free_writer _ _ | SenderCopied free_writer => Some free_writer
  | SenderIdle | SenderGone => None
  end.

Definition initial_system (bufsize : nat) : System :=
  let '(handles, ringq) := new_ringq bufsize in
  {| ring := ringq;
     sender_at := SenderIdle;
     receivers := [ {| handle := receiver handles; borrowing := false;
                       live := true |} ] |}.

(** How the owner of a receiver handle calls [start_recv] and [end_recv]:
    in turn, so that the handle has at most one borrow outstanding, or in
    any order. *)
Inductive discipline : Type :=
| Alternating
| AnyOrder.

(** One atomic action of one thread.  A dropped handle is not used again and
    the handle returned by a failed clone is not live; under [Alternating]
    a handle calls [start_recv] and [end_recv] in turn.  The two reads that
    [start_recv] makes after its unlock change nothing in the ring and
    belong to the same action. *)
Inductive step (d : discipline) : System → System → Prop :=
| step_send_select s data ts free_writer q' :
    sender_at s = SenderIdle →
    send_select (ring s) = Returns (inr free_writer, q') →
    step d s (mkSystem q' (SenderCopying free_writer data ts) (receivers s))
| step_send_refused s e q' :
    sender_at s = SenderIdle →
    send_select (ring s) = Returns (inl e, q') →
    step d s (mkSystem q' SenderIdle (receivers s))
| step_send_copy s free_writer data ts q' :
    sender_at s = SenderCopying free_writer data ts →
    send_copy free_writer data ts (ring s) = Returns (tt, q') →
    step d s (mkSystem q' (SenderCopied free_writer) (receivers s))
| step_send_publish s free_writer q' :
    sender_at s = SenderCopied free_writer →
    send_publish free_writer (ring s) = Returns (tt, q') →
    step d s (mkSystem q' SenderIdle (receivers s))
| step_free_sender s sd q' :
    sender_at s = SenderIdle →
    free_sender sd (ring s) = Returns (tt, q') →
    step d s (mkSystem q' SenderGone (receivers s))
| step_start_recv s k t code h' q' :
    receivers s !! k = Some t → live t = true →
    (d = Alternating → borrowing t = false) →
    start_recv (handle t) (ring s) = Returns ((code, h'), q') →
    step d s (mkSystem q' (sender_at s)
              (<[k:=mkThread h' (bool_decide (code = 0%Z)) true]>
                 (receivers s)))
| step_end_recv s k t code q' :
    receivers s !! k = Some t → live t = true →
    (d = Alternating → borrowing t = true) →
    end_recv (handle t) (ring s) = Returns (code, q') →
    step d s (mkSystem q' (sender_at s)
              (<[k:=mkThread (handle t) false true]> (receivers s)))
| step_new_receiver s k t h' error q' :
    receivers s !! k = Some t → live t = true →
    new_receiver (handle t) (ring s) = Returns ((h', error), q') →
    step d s (mkSystem q' (sender_at s)
              (if decide (error = 0%Z)
               then receivers s ++ [mkThread h' false true]
               else receivers s))
| step_drop_recv s k t q' :
    receivers s !! k = Some t → live t = true →
    drop_recv (handle t) (ring s) = Returns (tt, q') →
    step d s (mkSystem q' (sender_at s)
              (<[k:=mkThread (handle t) (borrowing t) false]> (receivers s))).

Inductive reachable (d : discipline) (bufsize : nat) : System → Prop :=
| reachable_init : reachable d bufsize (initial_system bufsize)
| reachable_step s s' :
    reachable d bufsize s → step d s s' → reachable d bufsize s'.

(** Receiver [k] holds a borrow in [s]. *)
Definition holds_borrow (k : nat) (s : System) : Prop :=
  ∃ t, receivers s !! k = Some t ∧ live t = true ∧ borrowing t = true.

(** A run during which receiver [k] never gives its borrow back. *)
Inductive held_through (d : discipline) (k : nat)
  : System → System → Prop :=
| held_here s : holds_borrow k s → held_through d k s s
| held_step s s' s'' :
    held_through d k s s' → step d s' s'' → holds_borrow k s'' →
    held_through d k s s''.

(** ** Counting handles *)

Fixpoint count {A : Type} (P : A → bool) (l : list A) : nat :=
  match l with
  | [] => 0
  | x :: l' => (if P x then 1 else 0) + count P l'
  end.

(** Does thread [t] hold a borrow on segment [i]? *)
Definition borrows_segment (i : nat) (t : receiver_thread) : bool :=
  borrowing t && bool_decide (index (handle t) = Some i).

(** ** The write-target selection as the specification words it *)

(** Section 4.1, [pick_write_target]: scan [0..num_segments], skip
    [last_written_block], return the first index with [num_borrows == 0];
    return [last_written_block] if there is none. *)
Definition pick_write_target (ringq : Inner) : nat :=
  default (last_written_block ringq)
    (head (filter (λ i, i ≠ last_written_block ringq
                        ∧ num_borrows ringq !!! i = 0%Z)
                  (seq 0 (num_segments ringq)))).

(** [n] clones in a row from the same handle; the error codes in order. *)
Fixpoint clone_times (n : nat) (receiver : Receiver) : RingM (list Z) :=
  match n with
  | O => mret []
  | S n' =>
      '(_, error) ← new_receiver receiver;
      errors ← clone_times n' receiver;
      mret (error :: errors)
  end.

(** ** Scenarios on a fresh ring *)

Section Scenarios.

Local Open Scope Z_scope.

(** The handles and the ring that [new_ringq 4] returns. *)
Definition the_sender : Sender := sender (new_ringq 4).1.
Definition the_receiver : Receiver := receiver (new_ringq 4).1.
Definition fresh_ring : Inner := (new_ringq 4).2.

Definition frame_dead_beef : list byte :=
  [Byte.xde; Byte.xad; Byte.xbe; Byte.xef].

Definition frame_of (b : byte) : list byte := replicate 4 b.

(** The ring once [send] has stored one frame. *)
Definition ring_after_one_send : Inner :=
  {| lock := Unlocked;
     segments := <[1%nat:=SegBytes frame_dead_beef]> (segments fresh_ring);
     timestamps := <[1%nat:=100]> (timestamps fresh_ring);
     num_borrows := num_borrows fresh_ring;
     num_segments := 3;
     bufsize := 4;
     last_written_block := 1;
     prev_written_block := 0;
     num_receivers := 1;
     flags := 0 |}.

(** A ring whose receivers have all gone. *)
Definition ring_without_receivers : Inner := set_num_receivers 0 fresh_ring.

(** The receiver has borrowed segment 1 of the fresh ring... *)
Definition handle_borrowing : Receiver :=
  {| receiver_bufsize := 4; index := Some 1%nat; data_ptr := Some 1%nat;
     timestamp := Some 0 |}.

Definition ring_borrowed : Inner :=
  set_num_borrows (<[1%nat:=1]> (num_borrows fresh_ring)) fresh_ring.

Definition system_borrowed : System :=
  {| ring := ring_borrowed;
     sender_at := SenderIdle;
     receivers := [mkThread handle_borrowing true true] |}.

(** ... and the sender has then been handed segment 2 and is copying. *)
Definition system_copying : System :=
  {| ring := set_prev_written_block 0 ring_borrowed;
     sender_at := SenderCopying 2 frame_dead_beef 100;
     receivers := [mkThread handle_borrowing true true] |}.

(** The copy is done and not yet published. *)
Definition system_copied : System :=
  {| ring := set_timestamps (<[2%nat:=100]> (timestamps ring_borrowed))
               (set_segments
                  (<[2%nat:=SegBytes frame_dead_beef]>
                     (segments ring_borrowed))
                  (set_prev_written_block 0 ring_borrowed));
     sender_at := SenderCopied 2;
     receivers := [mkThread handle_borrowing true true] |}.

(** The fresh ring after one clone. *)
Definition system_cloned : System :=
  {| ring := set_num_receivers 2
               (set_num_segments 4
                  (set_segments (<[3%nat:=SegUninit]> (segments fresh_ring))
                     fresh_ring));
     sender_at := SenderIdle;
     receivers := [mkThread the_receiver false true;
                   mkThread the_receiver false true] |}.

(** A run in which the one handle does not wait for [end_recv]: the send
    is published, ... *)
Definition ring_sent : Inner :=
  set_last_written_block 2 (ring system_copied).

Definition system_sent : System :=
  {| ring := ring_sent;
     sender_at := SenderIdle;
     receivers := [mkThread handle_borrowing true true] |}.

(** ... the handle calls [start_recv] again and is given segment 0, ... *)
Definition handle_second_borrow : Receiver :=
  {| receiver_bufsize := 4; index := Some 0%nat; data_ptr := Some 0%nat;
     timestamp := Some 0 |}.

Definition ring_second_borrow : Inner :=
  set_num_borrows (<[0%nat:=1]> (num_borrows ring_sent)) ring_sent.

Definition system_second_borrow : System :=
  {| ring := ring_second_borrow;
     sender_at := SenderIdle;
     receivers := [mkThread handle_second_borrow true true] |}.

(** ... the sender finds segments 0 and 1 borrowed, falls back on
    [last_written_block = 2] and sets CONFLATION, ... *)
Definition system_conflating : System :=
  {| ring := set_flags FLAG_CONFLATION ring_second_borrow;
     sender_at := SenderCopying 2 (frame_of Byte.x0a) 101;
     receivers := [mkThread handle_second_borrow true true] |}.

(** ... a third [start_recv] is given segment 2, ... *)
Definition handle_aliased : Receiver :=
  {| receiver_bufsize := 4; index := Some 2%nat; data_ptr := Some 2%nat;
     timestamp := Some 100 |}.

Definition ring_aliased : Inner :=
  set_num_borrows (<[2%nat:=1]> (num_borrows ring_second_borrow))
    (set_flags FLAG_CONFLATION ring_second_borrow).

Definition system_aliased : System :=
  {| ring := ring_aliased;
     sender_at := SenderCopying 2 (frame_of Byte.x0a) 101;
     receivers := [mkThread handle_aliased true true] |}.

(** ... and the copy lands in it. *)
Definition system_overwritten : System :=
  {| ring := set_timestamps (<[2%nat:=101]> (timestamps ring_aliased))
               (set_segments
                  (<[2%nat:=SegBytes (frame_of Byte.x0a)]>
                     (segments ring_aliased))
                  ring_aliased);
     sender_at := SenderCopied 2;
     receivers := [mkThread handle_aliased true true] |}.

(** Scenario 3 of the specification as it is worded: one receiver borrows
    and keeps its borrow, three sends follow, and the second and the third
    are to go to the segment of the send before them. *)
Definition conflation_scenario_as_specified : Prop :=
  ∀ h q1 q2 q3 q4,
    start_recv the_receiver fresh_ring = Returns ((0, h), q1) →
    send the_sender (frame_of Byte.x0a) 10 q1 = Returns (0, q2) →
    send the_sender (frame_of Byte.x0b) 11 q2 = Returns (0, q3) →
    send the_sender (frame_of Byte.x0c) 12 q3 = Returns (0, q4) →
    last_written_block q3 = last_written_block q2
    ∧ last_written_block q4 = last_written_block q3.

End Scenarios.

(** ** The invariant of the running system *)

Record sys_inv (s : System) : Prop := mkSysInv {
  (** the arrays keep their sixteen entries *)
  inv_borrows_length : length (num_borrows (ring s)) = MAX_SEGMENTS;
  inv_segments_length : length (segments (ring s)) = MAX_SEGMENTS;
  (** two segments more than handles ever handed out *)
  inv_pool : num_segments (ring s) = length (receivers s) + 2;
  inv_some_receiver : 0 < length (receivers s);
  inv_cap : num_segments (ring s) ≤ MAX_SEGMENTS;
  inv_last : last_written_block (ring s) < num_segments (ring s);
  inv_prev : prev_written_block (ring s) < num_segments (ring s);
  (** the sender never had to fall back on [last_written_block] *)
  inv_no_conflation : flag_set FLAG_CONFLATION (ring s) = false;
  (** every counter is the number of handles borrowing that segment *)
  inv_borrows : ∀ i, i < MAX_SEGMENTS →
    num_borrows (ring s) !!! i
    = Z.of_nat (count (borrows_segment i) (receivers s));
  inv_receivers :
    num_receivers (ring s) = Z.of_nat (count live (receivers s));
  (** every active segment has a buffer *)
  inv_allocated : ∀ i, i < num_segments (ring s) →
    segments (ring s) !!! i ≠ SegNull;
  (** a borrowing handle points into the active part of the table *)
  inv_handles : ∀ k t, receivers s !! k = Some t → borrowing t = true →
    ∃ i, index (handle t) = Some i ∧ data_ptr (handle t) = Some i
         ∧ i < num_segments (ring s);
  (** the segment being written is free and is not the one new readers get *)
  inv_target : ∀ w, write_target s = Some w →
    w < num_segments (ring s)
    ∧ w ≠ prev_written_block (ring s)
    ∧ num_borrows (ring s) !!! w = 0%Z
}.

(** The part of it that needs no discipline of the borrows. *)
Record pool_inv (s : System) : Prop := mkPoolInv {
  pool_segments : num_segments (ring s) = length (receivers s) + 2;
  pool_some_receiver : 0 < length (receivers s);
  pool_cap : num_segments (ring s) ≤ MAX_SEGMENTS;
  pool_receivers :
    num_receivers (ring s) = Z.of_nat (count live (receivers s))
}.

(** ** Well-formed rings *)

(** A buffer that can be written and read: allocated and not freed. *)
Definition is_buffer (sg : segment) : bool :=
  match sg with
  | SegUninit | SegBytes _ => true
  | SegNull | SegFreed => false
  end.

(** What [init_ringq] sets up and the operations rely on: the three arrays
    have their sixteen entries, the active part of the table fits in them
    and holds buffers, and the two block indices point into it. *)
Record ring_ok (q : Inner) : Prop := mkRingOk {
  ok_segments_length : length (segments q) = MAX_SEGMENTS;
  ok_timestamps_length : length (timestamps q) = MAX_SEGMENTS;
  ok_borrows_length : length (num_borrows q) = MAX_SEGMENTS;
  ok_cap : num_segments q ≤ MAX_SEGMENTS;
  ok_last : last_written_block q < num_segments q;
  ok_prev : prev_written_block q < num_segments q;
  ok_buffers : ∀ i, i < num_segments q →
    is_buffer (segments q !!! i) = true
}.

(** * Properties *)

(** ** Single calls on concrete rings *)

Section Evaluation.

Local Open Scope Z_scope.

(** Run the call on the concrete ring, then compare. *)
Local Ltac evaluate := lazy; reflexivity.

Lemma send_on_fresh_ring :
  send the_sender frame_dead_beef 100 fresh_ring
  = Returns (0, ring_after_one_send).
Proof. reflexivity. Qed.

(** Whatever the ring, [send] with no receiver left returns from inside
    its first critical section: the mutex stays locked. *)
Lemma send_no_receivers (q : Inner) sd data ts :
  lock q = Unlocked → num_receivers q = 0 →
  send sd data ts q = Returns (NO_RECEIVERS, set_lock Locked q).
Proof.
  intros Hlock Hnone. destruct q; simpl in *; subst.
  reflexivity.
Qed.

(** What [start_recv] borrows, for every ring it can run on. *)
Lemma start_recv_index (q : Inner) h code h' q' :
  start_recv h q = Returns ((code, h'), q') → code = 0 →
  index h' = Some (if flag_set FLAG_CONFLATION q
                   then last_written_block q
                   else prev_written_block q).
Proof.
  unfold start_recv, mbind, RingM_bind, pthread_mutex_lock,
    pthread_mutex_unlock, get, modify, mret, RingM_ret, undefined.
  destruct q as [lk sg tm nb ns bs lw pw nr fl]; simpl.
  destruct lk; try discriminate; simpl.
  unfold flag_set at 1; simpl.
  destruct (negb (Z.land fl FLAG_NO_SENDER =? 0)); simpl.
  - intros [= <- <- <-]. discriminate.
  - unfold _get_recv_index, flag_set; simpl.
    case_decide; simpl; [|discriminate].
    by intros [= <- <- <-] _.
Qed.

(** C2.  The claim has [start_recv] borrow [last_written_block] while
    CONFLATION is clear and [prev_written_block] while it is set.  The
    code does the opposite on both sides: on the ring left by one send
    (flag clear, last = 1, prev = 0) it borrows segment 0, and on the same
    ring with the flag set it borrows segment 1. *)
Theorem start_recv_index_is_inverted :
  flag_set FLAG_CONFLATION ring_after_one_send = false
  ∧ last_written_block ring_after_one_send = 1%nat
  ∧ prev_written_block ring_after_one_send = 0%nat
  ∧ (∃ h q, start_recv the_receiver ring_after_one_send
            = Returns ((0, h), q)
            ∧ index h = Some (prev_written_block ring_after_one_send)
            ∧ num_borrows q !!! 0%nat = 1
            ∧ num_borrows q !!! 1%nat = 0)
  ∧ flag_set FLAG_CONFLATION
      (set_flags FLAG_CONFLATION ring_after_one_send) = true
  ∧ (∃ h q, start_recv the_receiver
              (set_flags FLAG_CONFLATION ring_after_one_send)
            = Returns ((0, h), q)
            ∧ index h = Some (last_written_block ring_after_one_send)
            ∧ num_borrows q !!! 1%nat = 1
            ∧ num_borrows q !!! 0%nat = 0).
Proof.
  repeat split; try reflexivity.
  - eexists _, _. repeat split; evaluate.
  - eexists _, _. repeat split; evaluate.
Qed.

(** C3.  Scenario 1 on the code: [send] of DE AD BE EF with timestamp 100
    returns 0 and fills segment 1, yet the [start_recv] that follows
    returns 0 with a borrow on segment 0, which no send has written, and
    with timestamp 0; [end_recv] returns 0. *)
Theorem recv_after_send_misses_the_frame :
  send the_sender frame_dead_beef 100 fresh_ring
  = Returns (0, ring_after_one_send)
  ∧ ∃ h q,
      start_recv the_receiver ring_after_one_send = Returns ((0, h), q)
      ∧ index h = Some 0%nat
      ∧ timestamp h = Some 0
      ∧ borrowed_payload q h = Some SegUninit
      ∧ segments q !! 1%nat = Some (SegBytes frame_dead_beef)
      ∧ timestamps q !! 1%nat = Some 100
      ∧ end_recv h q = Returns (0, ring_after_one_send).
Proof.
  split; [reflexivity|].
  eexists _, _. repeat split; evaluate.
Qed.

(** C4.  [send] on a ring with [num_receivers = 0] returns NO_RECEIVERS
    and changes nothing but the mutex, which it leaves locked: the next
    call of any operation waits on it. *)
Theorem send_no_receivers_leaves_lock_held :
  lock ring_without_receivers = Unlocked
  ∧ num_receivers ring_without_receivers = 0
  ∧ send the_sender frame_dead_beef 100 ring_without_receivers
    = Returns (NO_RECEIVERS, set_lock Locked ring_without_receivers)
  ∧ set_lock Locked ring_without_receivers ≠ ring_without_receivers
  ∧ start_recv the_receiver (set_lock Locked ring_without_receivers)
    = Blocks
  ∧ new_receiver the_receiver (set_lock Locked ring_without_receivers)
    = Blocks.
Proof. repeat split; try reflexivity. discriminate. Qed.

(** C6.  With [drop_recv] as the specification describes it: dropping the
    sole receiver leaves [num_receivers = 0] and the mutex free; the first
    [send] after it returns NO_RECEIVERS holding the mutex, and the second
    never returns. *)
Theorem second_send_after_last_drop_blocks :
  ∃ q1 q2,
    drop_recv the_receiver fresh_ring = Returns (tt, q1)
    ∧ num_receivers q1 = 0
    ∧ lock q1 = Unlocked
    ∧ send the_sender frame_dead_beef 100 q1 = Returns (NO_RECEIVERS, q2)
    ∧ lock q2 = Locked
    ∧ send the_sender frame_dead_beef 101 q2 = Blocks.
Proof. eexists _, _. repeat split; evaluate. Qed.

(** C10.  On a ring fresh from [new_ringq], before any send, [start_recv]
    returns 0, records timestamp 0 and borrows segment
    [prev_written_block = 1], whose buffer has never been written. *)
Theorem start_recv_before_any_send (bufsize : nat) :
  ∃ h q,
    start_recv (receiver (new_ringq bufsize).1) (new_ringq bufsize).2
    = Returns ((0, h), q)
    ∧ prev_written_block (new_ringq bufsize).2 = 1%nat
    ∧ index h = Some 1%nat
    ∧ data_ptr h = Some 1%nat
    ∧ timestamp h = Some 0
    ∧ num_borrows q !!! 1%nat = 1
    ∧ borrowed_payload q h = Some SegUninit.
Proof. eexists _, _. repeat split; evaluate. Qed.

(** C5, as worded, fails: in scenario 3 the second send does not go to the
    segment of the first. *)
Lemma conflation_scenario_fails : ¬ conflation_scenario_as_specified.
Proof.
  intros Hclaim.
  edestruct Hclaim as [Hsecond _]; [evaluate..|].
  discriminate Hsecond.
Qed.

(** C5, amended.  With the receiver's borrow outstanding, each of the three
    sends picks a free segment other than that of the send before it and
    other than the borrowed one, none sets CONFLATION, and the borrowed
    segment keeps its content. *)
Theorem conflation_scenario_alternates :
  ∃ h q1 q2 q3 q4,
    start_recv the_receiver fresh_ring = Returns ((0, h), q1)
    ∧ send the_sender (frame_of Byte.x0a) 10 q1 = Returns (0, q2)
    ∧ send the_sender (frame_of Byte.x0b) 11 q2 = Returns (0, q3)
    ∧ send the_sender (frame_of Byte.x0c) 12 q3 = Returns (0, q4)
    ∧ Forall (λ '(q, q_next),
                ∃ w q', send_select q = Returns (inr w, q')
                        ∧ w ≠ last_written_block q
                        ∧ Some w ≠ index h
                        ∧ num_borrows q !!! w = 0
                        ∧ flag_set FLAG_CONFLATION q' = false
                        ∧ last_written_block q_next = w)
             [(q1, q2); (q2, q3); (q3, q4)]
    ∧ last_written_block q3 ≠ last_written_block q2
    ∧ last_written_block q4 ≠ last_written_block q3
    ∧ Forall (λ q, borrowed_payload q h = borrowed_payload q1 h)
             [q2; q3; q4].
Proof.
  eexists _, _, _, _, _.
  do 4 (split; [evaluate|]).
  split; [|split; [|split]].
  - repeat (apply Forall_cons; split;
            [eexists _, _; split; [evaluate|];
             split; [lazy; discriminate|];
             split; [lazy; discriminate|]; repeat split; reflexivity|]).
    apply Forall_nil_2.
  - lazy. discriminate.
  - lazy. discriminate.
  - repeat (apply Forall_cons; split; [reflexivity|]).
    apply Forall_nil_2.
Qed.

(** The segments the three sends of scenario 3 go to. *)
Lemma conflation_scenario_targets :
  ∃ h q1 q2 q3 q4,
    start_recv the_receiver fresh_ring = Returns ((0, h), q1)
    ∧ index h = Some 1%nat
    ∧ send the_sender (frame_of Byte.x0a) 10 q1 = Returns (0, q2)
    ∧ send the_sender (frame_of Byte.x0b) 11 q2 = Returns (0, q3)
    ∧ send the_sender (frame_of Byte.x0c) 12 q3 = Returns (0, q4)
    ∧ (last_written_block q2, last_written_block q3, last_written_block q4)
      = (2%nat, 0%nat, 2%nat).
Proof. eexists _, _, _, _, _. repeat split; evaluate. Qed.

(** C9.  From a fresh pair the first thirteen clones succeed, reaching 16
    segments and 14 receivers; the fourteenth returns MAX_RECEIVERS and
    leaves the ring as it was.  Along the way a clone succeeds exactly
    when [num_segments < 16]. *)
Theorem clone_cap (bufsize : nat) :
  let h := receiver (new_ringq bufsize).1 in
  let q0 := (new_ringq bufsize).2 in
  Forall (λ n, ∃ q, clone_times n h q0 = Returns (replicate n 0, q)
                    ∧ num_segments q = (3 + n)%nat
                    ∧ num_receivers q = 1 + Z.of_nat n
                    ∧ ∃ h' error q',
                        new_receiver h q = Returns ((h', error), q')
                        ∧ (error = 0 ↔ (num_segments q < 16)%nat)
                        ∧ (error = 0 ∨ error = MAX_RECEIVERS))
         (seq 0 14)
  ∧ ∃ q13, clone_times 13 h q0 = Returns (replicate 13 0, q13)
           ∧ num_segments q13 = 16%nat
           ∧ num_receivers q13 = 14
           ∧ ∃ h', new_receiver h q13 = Returns ((h', MAX_RECEIVERS), q13).
Proof.
  intros h q0. split.
  - repeat (apply Forall_cons; split;
            [eexists; split; [evaluate|]; split; [reflexivity|];
             split; [reflexivity|]; eexists _, _, _;
             split; [evaluate|]; split;
             [vm_compute; split; [intros; lia | intros; try lia; try done]
             |vm_compute; tauto]|]).
    apply Forall_nil_2.
  - eexists. split; [evaluate|].
    split; [reflexivity|]. split; [reflexivity|].
    eexists. evaluate.
Qed.

End Evaluation.

(** ** The choice of the write target *)

Section WriteTarget.

Implicit Types (q : Inner) (i j fuel : nat).

(** The loop looks at [last_written_block] and [num_borrows] only. *)
Lemma scan_free_writer_ext q1 q2 i fuel :
  last_written_block q1 = last_written_block q2 →
  num_borrows q1 = num_borrows q2 →
  scan_free_writer q1 i fuel = scan_free_writer q2 i fuel.
Proof.
  intros Hlast Hborrows. revert i.
  induction fuel as [|fuel IH]; intros i; simpl.
  - done.
  - rewrite Hlast, Hborrows, !IH. done.
Qed.

Lemma get_free_writer_ext q1 q2 :
  last_written_block q1 = last_written_block q2 →
  num_borrows q1 = num_borrows q2 →
  num_segments q1 = num_segments q2 →
  _get_free_writer q1 = _get_free_writer q2.
Proof.
  intros Hlast Hborrows Hsegs. unfold _get_free_writer.
  rewrite Hsegs. by apply scan_free_writer_ext.
Qed.

(** The loop is a search for the first free index other than
    [last_written_block]. *)
Lemma scan_free_writer_head q i fuel :
  scan_free_writer q i fuel
  = default (last_written_block q)
      (head (filter (λ j, j ≠ last_written_block q
                          ∧ num_borrows q !!! j = 0%Z)
                    (seq i fuel))).
Proof.
  revert i. induction fuel as [|fuel IH]; intros i; simpl; [done|].
  rewrite filter_cons, IH.
  destruct (decide (i = last_written_block q)) as [Heq|Hne].
  - rewrite decide_False by tauto. done.
  - destruct (decide (num_borrows q !!! i = 0%Z)) as [Hfree|Hbusy].
    + rewrite decide_True by tauto. done.
    + rewrite decide_False by tauto. done.
Qed.

(** Either the loop stops at a free index and everything before it was
    skipped or busy, or it runs to the end. *)
Lemma scan_free_writer_cases q i fuel :
  let w := scan_free_writer q i fuel in
  (w = last_written_block q
   ∧ ∀ j, i ≤ j < i + fuel → j ≠ last_written_block q →
          num_borrows q !!! j ≠ 0%Z)
  ∨ (w ≠ last_written_block q
     ∧ i ≤ w < i + fuel
     ∧ num_borrows q !!! w = 0%Z
     ∧ ∀ j, i ≤ j < w → j ≠ last_written_block q →
            num_borrows q !!! j ≠ 0%Z).
Proof.
  revert i. induction fuel as [|fuel IH]; intros i; simpl.
  - left. split; [done|]. intros j ?. lia.
  - destruct (decide (i = last_written_block q)) as [Heq|Hne].
    + destruct (IH (S i)) as [[Hw Hbusy]|(Hw & Hrange & Hfree & Hbusy)].
      * left. split; [done|]. intros j Hj Hjl.
        apply Hbusy; [|done]. destruct (decide (j = i)); [congruence|lia].
      * right. repeat split; [done|lia|lia|done|].
        intros j Hj Hjl.
        apply Hbusy; [|done]. destruct (decide (j = i)); [congruence|lia].
    + destruct (decide (num_borrows q !!! i = 0%Z)) as [Hfree|Hbusy_i].
      * right. repeat split; [done|lia|lia|done|]. intros j ?. lia.
      * destruct (IH (S i)) as [[Hw Hbusy]|(Hw & Hrange & Hfree & Hbusy)].
        -- left. split; [done|]. intros j Hj Hjl.
           destruct (decide (j = i)) as [->|]; [done|].
           apply Hbusy; [lia|done].
        -- right. repeat split; [done|lia|lia|done|].
           intros j Hj Hjl.
           destruct (decide (j = i)) as [->|]; [done|].
           apply Hbusy; [lia|done].
Qed.

Lemma get_free_writer_cases q :
  let w := _get_free_writer q in
  (w = last_written_block q
   ∧ ∀ j, j < num_segments q → j ≠ last_written_block q →
          num_borrows q !!! j ≠ 0%Z)
  ∨ (w ≠ last_written_block q
     ∧ w < num_segments q
     ∧ num_borrows q !!! w = 0%Z
     ∧ ∀ j, j < w → j ≠ last_written_block q →
            num_borrows q !!! j ≠ 0%Z).
Proof.
  unfold _get_free_writer.
  destruct (scan_free_writer_cases q 0 (num_segments q))
    as [[Hw Hbusy]|(Hw & Hrange & Hfree & Hbusy)].
  - left. split; [done|]. intros j ? ?. apply Hbusy; [lia|done].
  - right. repeat split; [done|lia|done|].
    intros j ? ?. apply Hbusy; [lia|done].
Qed.

(** C7.  [_get_free_writer] scans the indices [0..num_segments] upwards,
    passes over [last_written_block], and returns the first index whose
    [num_borrows] is 0; with no such index it returns
    [last_written_block]. *)
Theorem get_free_writer_first_free q :
  _get_free_writer q = pick_write_target q
  ∧ (∀ i, i < num_segments q → i ≠ last_written_block q →
          num_borrows q !!! i = 0%Z →
          (∀ j, j < i → j ≠ last_written_block q →
                num_borrows q !!! j ≠ 0%Z) →
          _get_free_writer q = i)
  ∧ ((∀ i, i < num_segments q → i ≠ last_written_block q →
           num_borrows q !!! i ≠ 0%Z) →
     _get_free_writer q = last_written_block q).
Proof.
  split; [apply scan_free_writer_head|].
  destruct (get_free_writer_cases q)
    as [[Hw Hbusy]|(Hw & Hrange & Hfree & Hbusy)].
  - split; [|done].
    intros i Hi Hil Hfree _. by destruct (Hbusy i).
  - split.
    + intros i Hi Hil Hfree_i Hbefore.
      destruct (Nat.lt_trichotomy (_get_free_writer q) i) as [Hlt|[Heq|Hgt]].
      * by destruct (Hbefore _ Hlt).
      * done.
      * by destruct (Hbusy i).
    + intros Hall. by destruct (Hall (_get_free_writer q)).
Qed.

Lemma get_free_writer_first_free_witness :
  _get_free_writer ring_after_one_send = 0.
Proof.
  apply (proj1 (proj2 (get_free_writer_first_free ring_after_one_send))).
  - simpl. lia.
  - simpl. lia.
  - reflexivity.
  - intros j Hj. lia.
Defined.

End WriteTarget.

(** ** What each atomic action does to the ring *)

Section Effects.

Implicit Types (q : Inner) (h : Receiver).

Local Ltac unfold_ops :=
  unfold send_select, send_copy, send_publish, free_sender, start_recv,
    end_recv, new_receiver, _new_segment, drop_recv, free_ringq,
    mbind, RingM_bind, mret, RingM_ret, get, modify, undefined,
    pthread_mutex_lock, pthread_mutex_unlock.

Lemma send_select_effect q r q' :
  send_select q = Returns (r, q') →
  lock q = Unlocked
  ∧ ((num_receivers q = 0%Z ∧ r = inl NO_RECEIVERS
      ∧ q' = set_lock Locked q)
     ∨ (num_receivers q ≠ 0%Z ∧ r = inr (_get_free_writer q)
        ∧ q' = if decide (_get_free_writer q = last_written_block q)
               then set_flags (Z.lor (flags q) FLAG_CONFLATION) q
               else set_prev_written_block (last_written_block q) q)).
Proof.
  unfold_ops. destruct q as [lk sg tm nb ns bs lw pw nr fl]; simpl.
  destruct lk; try discriminate; simpl.
  intros Hrun. split; [done|].
  set (w := _get_free_writer _) in *.
  assert (w = _get_free_writer (mkInner Unlocked sg tm nb ns bs lw pw nr fl))
    as Hw by (by apply get_free_writer_ext).
  clearbody w. subst w.
  destruct (decide (nr = 0%Z)) as [->|Hnr]; simpl in *.
  - left. by simplify_eq.
  - right. split; [done|].
    destruct (decide (_ = lw)); simpl in *; by simplify_eq.
Qed.

Lemma send_copy_effect w data ts q q' :
  send_copy w data ts q = Returns (tt, q') →
  q' = set_timestamps (<[w:=ts]> (timestamps q))
         (set_segments (<[w:=SegBytes (take (bufsize q) data)]> (segments q))
            q).
Proof.
  unfold_ops.
  destruct (segments q !! w) as [[]|]; try discriminate;
    case_decide; try discriminate; by intros [= <-].
Qed.

Lemma send_publish_effect w q q' :
  send_publish w q = Returns (tt, q') →
  lock q = Unlocked
  ∧ q' = set_flags (u8 (Z.land (flags q) (Z.lnot FLAG_CONFLATION)))
           (set_last_written_block w q).
Proof.
  unfold_ops. destruct q as [lk sg tm nb ns bs lw pw nr fl]; simpl.
  destruct lk; try discriminate; simpl. by intros [= <-].
Qed.

Lemma free_sender_effect sd q q' :
  free_sender sd q = Returns (tt, q') →
  lock q = Unlocked
  ∧ ((num_receivers q = 0%Z
      ∧ q' = set_lock Destroyed
               (set_segments (free_buffers (num_segments q) (segments q))
                  (set_flags (Z.lor (flags q) FLAG_NO_SENDER) q)))
     ∨ (num_receivers q ≠ 0%Z
        ∧ q' = set_flags (Z.lor (flags q) FLAG_NO_SENDER) q)).
Proof.
  unfold_ops. destruct q as [lk sg tm nb ns bs lw pw nr fl]; simpl.
  destruct lk; try discriminate; simpl.
  intros Hrun. split; [done|].
  case_decide; simpl in *; simplify_eq; eauto.
Qed.

Lemma start_recv_effect h q code h' q' :
  start_recv h q = Returns ((code, h'), q') →
  lock q = Unlocked
  ∧ ((flag_set FLAG_NO_SENDER q = true ∧ code = SENDER_CLOSED
      ∧ h' = h ∧ q' = q)
     ∨ (flag_set FLAG_NO_SENDER q = false ∧ code = 0%Z
        ∧ _get_recv_index q < MAX_SEGMENTS
        ∧ h' = {| receiver_bufsize := receiver_bufsize h;
                  index := Some (_get_recv_index q);
                  data_ptr := match segments q !!! _get_recv_index q with
                              | SegNull => None
                              | _ => Some (_get_recv_index q)
                              end;
                  timestamp := Some (timestamps q !!! _get_recv_index q) |}
        ∧ q' = set_num_borrows
                 (<[_get_recv_index q:=
                      u8 (num_borrows q !!! _get_recv_index q + 1)]>
                    (num_borrows q)) q)).
Proof.
  unfold_ops. destruct q as [lk sg tm nb ns bs lw pw nr fl]; simpl.
  destruct lk; try discriminate; simpl.
  intros Hrun. split; [done|].
  revert Hrun. unfold _get_recv_index, flag_set. simpl.
  destruct (negb (Z.land fl FLAG_NO_SENDER =? 0)%Z); simpl.
  - intros [= <- <- <-]. by left.
  - case_decide; simpl; [|discriminate].
    intros [= <- <- <-]. right. done.
Qed.

Lemma end_recv_effect h q code q' :
  end_recv h q = Returns (code, q') →
  lock q = Unlocked
  ∧ code = 0%Z
  ∧ ∃ i, index h = Some i ∧ i < MAX_SEGMENTS
         ∧ q' = set_num_borrows
                  (<[i:=u8 (num_borrows q !!! i - 1)]> (num_borrows q)) q.
Proof.
  unfold_ops. destruct q as [lk sg tm nb ns bs lw pw nr fl]; simpl.
  destruct lk; try discriminate; simpl.
  intros Hrun. split; [done|].
  revert Hrun. destruct (index h) as [i|]; [|discriminate].
  case_decide; simpl; [|discriminate].
  intros [= <- <-]. eauto.
Qed.

Lemma new_receiver_effect h q h' error q' :
  new_receiver h q = Returns ((h', error), q') →
  lock q = Unlocked
  ∧ h' = {| receiver_bufsize := receiver_bufsize h; index := None;
            data_ptr := None; timestamp := None |}
  ∧ ((num_segments q = MAX_SEGMENTS ∧ error = MAX_RECEIVERS ∧ q' = q)
     ∨ (num_segments q < MAX_SEGMENTS ∧ error = 0%Z
        ∧ q' = set_num_receivers (u8 (num_receivers q + 1))
                 (set_num_segments (S (num_segments q))
                    (set_segments
                       (<[num_segments q:=SegUninit]> (segments q)) q)))).
Proof.
  unfold_ops. destruct q as [lk sg tm nb ns bs lw pw nr fl]; simpl.
  destruct lk; try discriminate; simpl.
  intros Hrun. split; [done|].
  revert Hrun. case_decide; simpl.
  - intros [= <- <- <-]. eauto.
  - case_decide; simpl; [|discriminate].
    intros [= <- <- <-]. eauto.
Qed.

Lemma drop_recv_effect h q q' :
  drop_recv h q = Returns (tt, q') →
  lock q = Unlocked
  ∧ ((flag_set FLAG_NO_SENDER q = true ∧ u8 (num_receivers q - 1) = 0%Z
      ∧ q' = set_lock Destroyed
               (set_segments (free_buffers (num_segments q) (segments q))
                  (set_num_receivers (u8 (num_receivers q - 1)) q)))
     ∨ q' = set_num_receivers (u8 (num_receivers q - 1)) q).
Proof.
  unfold_ops. destruct q as [lk sg tm nb ns bs lw pw nr fl]; simpl.
  destruct lk; try discriminate; simpl.
  intros Hrun. split; [done|].
  revert Hrun. unfold flag_set; simpl.
  destruct (negb (Z.land fl FLAG_NO_SENDER =? 0)%Z); simpl.
  - case_bool_decide; simpl; intros [= <-]; eauto.
  - intros [= <-]. eauto.
Qed.

End Effects.

(** ** Counting *)

Section Counting.

Context {A : Type}.
Implicit Types (P : A → bool) (l : list A) (x y : A) (k : nat).

Lemma count_le_length P l : count P l ≤ length l.
Proof. induction l as [|x l IH]; simpl; [lia|]. destruct (P x); lia. Qed.

Lemma count_app P l1 l2 : count P (l1 ++ l2) = count P l1 + count P l2.
Proof. induction l1 as [|x l1 IH]; simpl; [done|]. rewrite IH. lia. Qed.

Lemma count_insert P l k x y :
  l !! k = Some x →
  count P (<[k:=y]> l) + (if P x then 1 else 0)
  = count P l + (if P y then 1 else 0).
Proof.
  revert k. induction l as [|z l IH]; intros [|k] Hk; simpl in *;
    try discriminate.
  - injection Hk as ->. lia.
  - specialize (IH _ Hk). lia.
Qed.

Lemma count_lookup P l k x : l !! k = Some x → P x = true → 0 < count P l.
Proof.
  revert k. induction l as [|z l IH]; intros [|k] Hk HP; simpl in *;
    try discriminate.
  - injection Hk as ->. rewrite HP. lia.
  - specialize (IH _ Hk HP). lia.
Qed.

Lemma count_pos P l : 0 < count P l → ∃ x, x ∈ l ∧ P x = true.
Proof.
  induction l as [|z l IH]; simpl; [lia|].
  destruct (P z) eqn:HP.
  - intros _. exists z. split; [left|done].
  - intros Hpos. destruct IH as (x & Hx & HPx); [lia|].
    exists x. split; [by right|done].
Qed.

Lemma omap_length_le {B : Type} (f : A → option B) l :
  length (omap f l) ≤ length l.
Proof.
  induction l as [|x l IH]; csimpl; [lia|].
  destruct (f x); simpl; lia.
Qed.

End Counting.

(** With two more segments than handles, and every handle borrowing at most
    one segment, the segments other than [last_written_block] cannot all be
    borrowed. *)
Lemma not_all_borrowed (threads : list receiver_thread) (n last : nat) :
  n = length threads + 2 →
  ¬ ∀ j, j < n → j ≠ last → 0 < count (borrows_segment j) threads.
Proof.
  intros Hn Hall.
  set (held := omap (λ t, if borrowing t then index (handle t) else None)
                 threads).
  assert (seq 0 n ⊆+ last :: held) as Hsub.
  { apply NoDup_submseteq; [apply NoDup_seq|].
    intros j Hj. apply elem_of_seq in Hj.
    destruct (decide (j = last)) as [->|Hne]; [left|right].
    destruct (count_pos _ _ (Hall j ltac:(lia) Hne)) as (t & Ht & Hb).
    apply list_elem_of_omap. exists t. split; [done|].
    unfold borrows_segment in Hb.
    apply andb_prop in Hb as [-> Hi]. by apply bool_decide_eq_true in Hi. }
  apply submseteq_length in Hsub.
  rewrite length_seq in Hsub. simpl in Hsub.
  assert (length held ≤ length threads) by apply omap_length_le.
  lia.
Qed.

(** ** Bytes and flags *)

Section Bits.

Local Open Scope Z_scope.

Lemma u8_small z : 0 ≤ z < 256 → u8 z = z.
Proof. intros. unfold u8. by apply Z.mod_small. Qed.

Lemma land_1_mod z : Z.land z 1 = z mod 2.
Proof.
  change (Z.land z 1) with (Z.land z (Z.ones 1)).
  by rewrite Z.land_ones.
Qed.

(** Clearing CONFLATION clears it. *)
Lemma conflation_cleared fl :
  Z.land (u8 (Z.land fl (Z.lnot FLAG_CONFLATION))) FLAG_CONFLATION = 0.
Proof.
  unfold u8, FLAG_CONFLATION. rewrite land_1_mod.
  rewrite Z.mod_mod_divide by (by exists 128).
  rewrite Zmod_odd, <- Z.bit0_odd, Z.land_spec.
  by rewrite andb_false_r.
Qed.

(** Setting NO_SENDER leaves CONFLATION as it is. *)
Lemma conflation_kept fl :
  Z.land (Z.lor fl FLAG_NO_SENDER) FLAG_CONFLATION
  = Z.land fl FLAG_CONFLATION.
Proof.
  rewrite Z.land_lor_distr_l. unfold FLAG_NO_SENDER, FLAG_CONFLATION.
  simpl. by rewrite Z.lor_0_r.
Qed.

End Bits.

(** ** The invariant holds in every reachable state *)

Section Invariant.

Implicit Types (s : System) (q : Inner) (t : receiver_thread).

Lemma sys_inv_init bufsize : sys_inv (initial_system bufsize).
Proof.
  constructor; simpl; try done; try (unfold MAX_SEGMENTS; lia).
  - intros i Hi. do 16 (destruct i as [|i]; [done|]).
    unfold MAX_SEGMENTS in Hi. lia.
  - intros [|[|[|i]]] Hi; simpl; try done. lia.
  - intros [|k] t; simpl; [|done]. by intros [= <-].
Qed.

(** A counter equal to a number of handles does not wrap. *)
Lemma borrow_count_bound s i :
  sys_inv s → count (borrows_segment i) (receivers s) ≤ 14.
Proof.
  intros Hinv. pose proof (count_le_length (borrows_segment i) (receivers s)).
  pose proof (inv_pool _ Hinv). pose proof (inv_cap _ Hinv).
  unfold MAX_SEGMENTS in *. lia.
Qed.

Lemma live_count_bound s :
  sys_inv s → count live (receivers s) ≤ length (receivers s).
Proof. intros _. apply count_le_length. Qed.

(** The first critical section of [send] finds a free segment other than
    [last_written_block]. *)
Lemma free_writer_is_free s :
  sys_inv s →
  let w := _get_free_writer (ring s) in
  w ≠ last_written_block (ring s)
  ∧ w < num_segments (ring s)
  ∧ num_borrows (ring s) !!! w = 0%Z.
Proof.
  intros Hinv w.
  destruct (get_free_writer_cases (ring s))
    as [[Hw Hbusy]|(Hw & Hrange & Hfree & _)]; [|done].
  exfalso.
  apply (not_all_borrowed (receivers s) (num_segments (ring s))
           (last_written_block (ring s))); [by apply inv_pool|].
  intros j Hj Hjl. specialize (Hbusy j Hj Hjl).
  pose proof (inv_cap _ Hinv).
  rewrite (inv_borrows _ Hinv) in Hbusy by lia. lia.
Qed.

Lemma sys_inv_send_select s data ts w q' :
  sys_inv s →
  sender_at s = SenderIdle →
  send_select (ring s) = Returns (inr w, q') →
  sys_inv (mkSystem q' (SenderCopying w data ts) (receivers s)).
Proof.
  intros Hinv Hidle Hsel.
  apply send_select_effect in Hsel
    as [Hlock [(_ & [=] & _)|(Hnr & [= ->] & ->)]].
  destruct (free_writer_is_free s Hinv) as (Hne & Hlt & Hfree).
  rewrite decide_False by done.
  destruct Hinv. constructor; simpl; try done.
  intros w [= <-]. done.
Qed.

Lemma sys_inv_send_refused s e q' :
  sys_inv s →
  sender_at s = SenderIdle →
  send_select (ring s) = Returns (inl e, q') →
  sys_inv (mkSystem q' SenderIdle (receivers s)).
Proof.
  intros Hinv Hidle Hsel.
  apply send_select_effect in Hsel as [Hlock [(_ & _ & ->)|(_ & [=] & _)]].
  destruct Hinv. constructor; simpl; done.
Qed.

Lemma sys_inv_send_copy s w data ts q' :
  sys_inv s →
  sender_at s = SenderCopying w data ts →
  send_copy w data ts (ring s) = Returns (tt, q') →
  sys_inv (mkSystem q' (SenderCopied w) (receivers s)).
Proof.
  intros Hinv Hpc Hcopy. apply send_copy_effect in Hcopy as ->.
  destruct Hinv as [? ? ? ? ? ? ? ? ? ? Halloc ? Htarget].
  constructor; simpl; try done.
  - by rewrite length_insert.
  - intros i Hi. rewrite list_lookup_total_insert.
    case_decide; [done|by apply Halloc].
  - intros w' [= <-]. apply Htarget. unfold write_target. by rewrite Hpc.
Qed.

Lemma sys_inv_send_publish s w q' :
  sys_inv s →
  sender_at s = SenderCopied w →
  send_publish w (ring s) = Returns (tt, q') →
  sys_inv (mkSystem q' SenderIdle (receivers s)).
Proof.
  intros Hinv Hpc Hpub. apply send_publish_effect in Hpub as [_ ->].
  destruct Hinv as [? ? ? ? ? ? ? ? ? ? ? ? Htarget].
  destruct (Htarget w) as (Hw & _); [unfold write_target; by rewrite Hpc|].
  constructor; simpl; try done.
  unfold flag_set; simpl. by rewrite conflation_cleared.
Qed.

Lemma free_buffers_not_null n (segs : list segment) i :
  segs !!! i ≠ SegNull → free_buffers n segs !!! i ≠ SegNull.
Proof.
  unfold free_buffers.
  rewrite !list_lookup_total_alt, list_lookup_imap.
  destruct (segs !! i) as [sg|]; simpl; [|done].
  case_decide; [|done]. by destruct sg.
Qed.

Lemma sys_inv_free_sender s sd q' :
  sys_inv s →
  sender_at s = SenderIdle →
  free_sender sd (ring s) = Returns (tt, q') →
  sys_inv (mkSystem q' SenderGone (receivers s)).
Proof.
  intros Hinv Hpc Hfree.
  destruct Hinv as [? ? ? ? ? ? ? Hnc ? ? Halloc ? ?].
  assert (flag_set FLAG_CONFLATION
            (set_flags (Z.lor (flags (ring s)) FLAG_NO_SENDER) (ring s))
          = false) as Hnc'.
  { revert Hnc. unfold flag_set; simpl. by rewrite conflation_kept. }
  apply free_sender_effect in Hfree as [_ [[_ ->]| [_ ->]]];
    constructor; simpl; try done.
  - unfold free_buffers. by rewrite length_imap.
  - intros i Hi. by apply free_buffers_not_null, Halloc.
Qed.

(** While CONFLATION is clear a new reader is given
    [prev_written_block]. *)
Lemma recv_index_prev s :
  sys_inv s → _get_recv_index (ring s) = prev_written_block (ring s).
Proof.
  intros Hinv. unfold _get_recv_index.
  by rewrite (inv_no_conflation _ Hinv).
Qed.

Lemma sys_inv_start_recv s k t code h' q' :
  sys_inv s →
  receivers s !! k = Some t → live t = true → borrowing t = false →
  start_recv (handle t) (ring s) = Returns ((code, h'), q') →
  sys_inv (mkSystem q' (sender_at s)
             (<[k:=mkThread h' (bool_decide (code = 0%Z)) true]>
                (receivers s))).
Proof.
  intros Hinv Hk Hlive Hidle Hstart.
  pose proof (recv_index_prev s Hinv) as Hidx.
  pose proof (borrow_count_bound s (prev_written_block (ring s)) Hinv)
    as Hbound.
  destruct Hinv as [Hbl ? Hpool ? Hcap ? Hprev ? Hb Hr Halloc Hh Htarget].
  apply start_recv_effect in Hstart
    as [_ [(_ & -> & -> & ->)|(_ & -> & Hi & -> & ->)]].
  - (* SENDER_CLOSED: nothing changes *)
    rewrite bool_decide_eq_false_2 by done.
    replace (mkThread (handle t) false true) with t
      by (destruct t; simpl in *; by subst).
    rewrite list_insert_id by done.
    by constructor.
  - rewrite bool_decide_eq_true_2 by done.
    rewrite Hidx in *. set (p := prev_written_block (ring s)) in *.
    set (t1 := mkThread _ true true).
    constructor; simpl; try done.
    + by rewrite length_insert.
    + by rewrite length_insert.
    + by rewrite length_insert.
    + intros i Hi'.
      pose proof (count_insert (borrows_segment i) _ k t t1 Hk) as Hcount.
      replace (borrows_segment i t) with false in Hcount
        by (unfold borrows_segment; by rewrite Hidle).
      destruct (decide (p = i)) as [<-|Hne].
      * rewrite list_lookup_total_insert_eq by lia.
        replace (borrows_segment p t1) with true in Hcount
          by (unfold borrows_segment; simpl;
              by rewrite bool_decide_eq_true_2).
        rewrite Hb by done. rewrite u8_small by lia. lia.
      * rewrite list_lookup_total_insert_ne by done.
        replace (borrows_segment i t1) with false in Hcount
          by (unfold borrows_segment; simpl;
              rewrite bool_decide_eq_false_2; [done|congruence]).
        rewrite Hb by done. f_equal. lia.
    + pose proof (count_insert live _ k t t1 Hk) as Hcount.
      simpl in Hcount. rewrite Hlive in Hcount. rewrite Hr. f_equal. lia.
    + intros k' t' Hk' Hb'.
      destruct (decide (k = k')) as [<-|Hne].
      * rewrite list_lookup_insert_eq in Hk'
          by (by eapply lookup_lt_Some).
        injection Hk' as <-. subst t1. simpl. exists p.
        split; [done|]. split; [|done].
        specialize (Halloc p Hprev).
        by destruct (segments (ring s) !!! p).
      * rewrite list_lookup_insert_ne in Hk' by done. by eapply Hh.
    + intros w Hw. destruct (Htarget w Hw) as (? & Hwp & ?).
      split; [done|]. split; [done|].
      by rewrite list_lookup_total_insert_ne.
Qed.

Lemma sys_inv_end_recv s k t code q' :
  sys_inv s →
  receivers s !! k = Some t → live t = true → borrowing t = true →
  end_recv (handle t) (ring s) = Returns (code, q') →
  sys_inv (mkSystem q' (sender_at s)
             (<[k:=mkThread (handle t) false true]> (receivers s))).
Proof.
  intros Hinv Hk Hlive Hbusy Hend.
  apply end_recv_effect in Hend as (_ & _ & i & Hidx & Hi & ->).
  pose proof (borrow_count_bound s i Hinv) as Hbound.
  destruct Hinv as [Hbl ? Hpool ? Hcap ? Hprev ? Hb Hr Halloc Hh Htarget].
  set (t1 := mkThread _ false true).
  assert (borrows_segment i t = true) as Hheld.
  { unfold borrows_segment. rewrite Hbusy, Hidx. simpl.
    by apply bool_decide_eq_true_2. }
  pose proof (count_lookup _ _ _ _ Hk Hheld) as Hpos.
  constructor; simpl; try done.
  - by rewrite length_insert.
  - by rewrite length_insert.
  - by rewrite length_insert.
  - intros j Hj.
    pose proof (count_insert (borrows_segment j) _ k t t1 Hk) as Hcount.
    replace (borrows_segment j t1) with false in Hcount by done.
    destruct (decide (i = j)) as [<-|Hne].
    + rewrite list_lookup_total_insert_eq by lia.
      rewrite Hheld in Hcount.
      rewrite Hb by done. rewrite u8_small by lia. lia.
    + rewrite list_lookup_total_insert_ne by done.
      replace (borrows_segment j t) with false in Hcount
        by (unfold borrows_segment; rewrite Hidx;
            rewrite bool_decide_eq_false_2; [by rewrite andb_false_r
                                            |congruence]).
      rewrite Hb by done. f_equal. lia.
  - pose proof (count_insert live _ k t t1 Hk) as Hcount.
    simpl in Hcount. rewrite Hlive in Hcount. rewrite Hr. f_equal. lia.
  - intros k' t' Hk' Hb'.
    destruct (decide (k = k')) as [<-|Hne].
    + rewrite list_lookup_insert_eq in Hk' by (by eapply lookup_lt_Some).
      injection Hk' as <-. done.
    + rewrite list_lookup_insert_ne in Hk' by done. by eapply Hh.
  - intros w Hw. destruct (Htarget w Hw) as (? & ? & Hfree).
    split; [done|]. split; [done|].
    rewrite list_lookup_total_insert_ne; [done|].
    intros <-. rewrite Hb in Hfree by done. lia.
Qed.

Lemma sys_inv_new_receiver s k t h' error q' :
  sys_inv s →
  receivers s !! k = Some t → live t = true →
  new_receiver (handle t) (ring s) = Returns ((h', error), q') →
  sys_inv (mkSystem q' (sender_at s)
             (if decide (error = 0%Z)
              then receivers s ++ [mkThread h' false true]
              else receivers s)).
Proof.
  intros Hinv Hk Hlive Hnew.
  pose proof (live_count_bound s Hinv) as Hbound.
  apply new_receiver_effect in Hnew
    as (_ & -> & [(_ & -> & ->)|(Hroom & -> & ->)]).
  { rewrite decide_False by done. by destruct Hinv. }
  rewrite decide_True by done.
  destruct Hinv as [Hbl Hsl Hpool ? Hcap ? Hprev ? Hb Hr Halloc Hh Htarget].
  set (t1 := mkThread _ false true).
  constructor; simpl; try done.
  - by rewrite length_insert.
  - rewrite length_app. simpl. lia.
  - rewrite length_app. simpl. lia.
  - lia.
  - lia.
  - intros i Hi. rewrite count_app. simpl.
    replace (borrows_segment i t1) with false by done.
    rewrite Hb by done. f_equal. lia.
  - rewrite count_app. simpl. rewrite Hr.
    unfold MAX_SEGMENTS in *. rewrite u8_small by lia. lia.
  - intros i Hi. rewrite list_lookup_total_insert.
    case_decide; [done|]. apply Halloc. lia.
  - intros k' t' Hk' Hb'.
    apply lookup_app_Some in Hk' as [Hk'|[_ Hk']].
    + destruct (Hh _ _ Hk' Hb') as (i & ? & ? & ?).
      exists i. split; [done|]. split; [done|]. lia.
    + apply list_lookup_singleton_Some in Hk' as [_ <-]. done.
  - intros w Hw. destruct (Htarget w Hw) as (? & ? & ?).
    split; [lia|done].
Qed.

Lemma sys_inv_drop_recv s k t q' :
  sys_inv s →
  receivers s !! k = Some t → live t = true →
  drop_recv (handle t) (ring s) = Returns (tt, q') →
  sys_inv (mkSystem q' (sender_at s)
             (<[k:=mkThread (handle t) (borrowing t) false]> (receivers s))).
Proof.
  intros Hinv Hk Hlive Hdrop.
  pose proof (live_count_bound s Hinv) as Hbound.
  pose proof (count_lookup live _ _ _ Hk Hlive) as Hpos.
  destruct Hinv as [Hbl Hsl Hpool ? Hcap ? Hprev ? Hb Hr Halloc Hh Htarget].
  set (t1 := mkThread _ _ false).
  assert (∀ i, count (borrows_segment i) (<[k:=t1]> (receivers s))
               = count (borrows_segment i) (receivers s)) as Hsame.
  { intros i.
    pose proof (count_insert (borrows_segment i) _ k t t1 Hk) as Hcount.
    replace (borrows_segment i t1) with (borrows_segment i t) in Hcount
      by done.
    lia. }
  assert (u8 (num_receivers (ring s) - 1)
          = Z.of_nat (count live (<[k:=t1]> (receivers s)))) as Hr'.
  { pose proof (count_insert live _ k t t1 Hk) as Hcount.
    simpl in Hcount. rewrite Hlive in Hcount. rewrite Hr.
    unfold MAX_SEGMENTS in *. rewrite u8_small by lia. lia. }
  assert (∀ k' t', <[k:=t1]> (receivers s) !! k' = Some t' →
            borrowing t' = true →
            ∃ i, index (handle t') = Some i ∧ data_ptr (handle t') = Some i
                 ∧ i < num_segments (ring s)) as Hh'.
  { intros k' t' Hk' Hb'.
    destruct (decide (k = k')) as [<-|Hne].
    - rewrite list_lookup_insert_eq in Hk' by (by eapply lookup_lt_Some).
      injection Hk' as <-. subst t1. simpl in *. by apply (Hh k t).
    - rewrite list_lookup_insert_ne in Hk' by done. by eapply Hh. }
  apply drop_recv_effect in Hdrop as [_ [(_ & _ & ->)| ->]];
    constructor; simpl; rewrite ?length_insert; try done.
  - unfold free_buffers. by rewrite length_imap.
  - intros i Hi. by rewrite Hsame, Hb.
  - intros i Hi. by apply free_buffers_not_null, Halloc.
  - intros i Hi. by rewrite Hsame, Hb.
Qed.

Lemma sys_inv_step s s' : sys_inv s → step Alternating s s' → sys_inv s'.
Proof.
  intros Hinv Hstep. destruct Hstep.
  - by eapply sys_inv_send_select.
  - by eapply sys_inv_send_refused.
  - by eapply sys_inv_send_copy.
  - by eapply sys_inv_send_publish.
  - by eapply sys_inv_free_sender.
  - eapply sys_inv_start_recv; eauto.
  - eapply sys_inv_end_recv; eauto.
  - by eapply sys_inv_new_receiver.
  - by eapply sys_inv_drop_recv.
Qed.

Lemma sys_inv_reachable bufsize s :
  reachable Alternating bufsize s → sys_inv s.
Proof.
  induction 1 as [|s s' _ IH Hstep]; [apply sys_inv_init|].
  by eapply sys_inv_step.
Qed.

(** *** A borrowed segment keeps its content *)

(** The copy of [send] writes the segment the sender was handed and no
    segment that is borrowed. *)
Lemma send_copy_spares_borrowed s w data ts q' i :
  sys_inv s →
  sender_at s = SenderCopying w data ts →
  send_copy w data ts (ring s) = Returns (tt, q') →
  (0 < num_borrows (ring s) !!! i)%Z →
  segments q' !! i = segments (ring s) !! i
  ∧ timestamps q' !! i = timestamps (ring s) !! i.
Proof.
  intros Hinv Hpc Hcopy Hborrowed.
  apply send_copy_effect in Hcopy as ->. simpl.
  destruct (inv_target _ Hinv w) as (_ & _ & Hfree);
    [unfold write_target; by rewrite Hpc|].
  assert (w ≠ i) by (intros ->; lia).
  by rewrite !list_lookup_insert_ne.
Qed.

Lemma holder_counted s k t i :
  sys_inv s →
  receivers s !! k = Some t → borrowing t = true →
  index (handle t) = Some i → i < MAX_SEGMENTS →
  (0 < num_borrows (ring s) !!! i)%Z.
Proof.
  intros Hinv Hk Hb Hidx Hi.
  rewrite (inv_borrows _ Hinv) by done.
  assert (borrows_segment i t = true) as Hheld.
  { unfold borrows_segment. rewrite Hb, Hidx. simpl.
    by apply bool_decide_eq_true_2. }
  pose proof (count_lookup _ _ _ _ Hk Hheld). lia.
Qed.

Lemma step_keeps_payload s s' k t t' :
  sys_inv s → step Alternating s s' →
  receivers s !! k = Some t → live t = true → borrowing t = true →
  receivers s' !! k = Some t' → live t' = true → borrowing t' = true →
  handle t' = handle t
  ∧ borrowed_payload (ring s') (handle t)
    = borrowed_payload (ring s) (handle t).
Proof.
  intros Hinv Hstep Hk Hlive Hb Hk' Hlive' Hb'.
  pose proof (sys_inv_step _ _ Hinv Hstep) as Hinv'.
  destruct (inv_handles _ Hinv k t Hk Hb) as (i & Hidx & Hptr & Hi).
  pose proof (inv_cap _ Hinv) as Hcap.
  assert (0 < num_borrows (ring s) !!! i)%Z as Hcounted
    by (eapply holder_counted; [done..|lia]).
  assert (0 < count live (receivers s')) as Hsomeone
    by (by eapply count_lookup).
  pose proof (inv_receivers _ Hinv') as Hr'.
  unfold borrowed_payload. rewrite Hptr. simpl.
  destruct Hstep as
    [s data ts w q' Hpc Hsel
    |s e q' Hpc Hsel
    |s w data ts q' Hpc Hcopy
    |s w q' Hpc Hpub
    |s sd q' Hpc Hfree
    |s k0 t0 code h' q' Hk0 Hlive0 Hidle0 Hstart
    |s k0 t0 code q' Hk0 Hlive0 Hbusy0 Hend
    |s k0 t0 h' error q' Hk0 Hlive0 Hnew
    |s k0 t0 q' Hk0 Hlive0 Hdrop]; simpl in *.
  - split; [congruence|].
    apply send_select_effect in Hsel as [_ [(_ & _ & ->)|(_ & _ & ->)]];
      [done|]. by case_decide.
  - split; [congruence|].
    apply send_select_effect in Hsel as [_ [(_ & _ & ->)|(_ & _ & ->)]];
      [done|]. by case_decide.
  - split; [congruence|].
    by destruct (send_copy_spares_borrowed s w data ts q' i).
  - split; [congruence|].
    by apply send_publish_effect in Hpub as [_ ->].
  - split; [congruence|].
    apply free_sender_effect in Hfree as [_ [[Hnone ->]|[_ ->]]]; [|done].
    simpl in Hr'. lia.
  - specialize (Hidle0 eq_refl).
    destruct (decide (k0 = k)) as [->|Hne]; [congruence|].
    rewrite list_lookup_insert_ne in Hk' by done.
    split; [congruence|].
    by apply start_recv_effect in Hstart
      as [_ [(_ & _ & _ & ->)|(_ & _ & _ & _ & ->)]].
  - destruct (decide (k0 = k)) as [->|Hne].
    { rewrite list_lookup_insert_eq in Hk' by (by eapply lookup_lt_Some).
      by injection Hk' as <-. }
    rewrite list_lookup_insert_ne in Hk' by done.
    split; [congruence|].
    by apply end_recv_effect in Hend as (_ & _ & ? & _ & _ & ->).
  - assert (t' = t) as ->.
    { case_decide; [|congruence].
      rewrite lookup_app_l in Hk' by (by eapply lookup_lt_Some).
      congruence. }
    split; [done|].
    apply new_receiver_effect in Hnew
      as (_ & _ & [(_ & _ & ->)|(_ & _ & ->)]); [done|].
    simpl. rewrite list_lookup_insert_ne by lia. done.
  - destruct (decide (k0 = k)) as [->|Hne].
    { rewrite list_lookup_insert_eq in Hk' by (by eapply lookup_lt_Some).
      by injection Hk' as <-. }
    rewrite list_lookup_insert_ne in Hk' by done.
    split; [congruence|].
    apply drop_recv_effect in Hdrop as [_ [(_ & Hnone & ->)| ->]]; [|done].
    simpl in Hr'. lia.
Qed.

Lemma held_through_inv k s s' :
  sys_inv s → held_through Alternating k s s' → sys_inv s'.
Proof.
  intros Hinv. induction 1 as [|s s' s'' _ IH Hstep _]; [done|].
  eapply sys_inv_step; [|done]. by apply IH.
Qed.

Lemma held_through_payload k s s' :
  sys_inv s → held_through Alternating k s s' →
  ∃ t t', receivers s !! k = Some t ∧ receivers s' !! k = Some t'
          ∧ live t' = true ∧ borrowing t' = true
          ∧ handle t' = handle t
          ∧ borrowed_payload (ring s') (handle t')
            = borrowed_payload (ring s) (handle t).
Proof.
  intros Hinv Hheld.
  induction Hheld as [s (t & Hk & Hlive & Hb)
                     |s s' s'' Hheld IH Hstep (t'' & Hk'' & Hlive'' & Hb'')].
  - by exists t, t.
  - destruct (IH Hinv) as (t & t' & Hk & Hk' & Hlive' & Hb' & Hh & Hp).
    destruct (step_keeps_payload s' s'' k t' t'') as [Hh'' Hp''];
      [by eapply held_through_inv|done..|].
    exists t, t''. repeat split; try done.
    + by rewrite Hh''.
    + by rewrite Hh'', Hp''.
Qed.

End Invariant.

(** ** The pool of segments *)

Section Pool.

Implicit Types (d : discipline) (s : System).

Lemma pool_inv_init bufsize : pool_inv (initial_system bufsize).
Proof. constructor; simpl; try done; unfold MAX_SEGMENTS; lia. Qed.

(** Replacing a live handle by a live handle changes neither count. *)
Lemma pool_inv_update s q' pc k t h' b :
  pool_inv s →
  receivers s !! k = Some t → live t = true →
  num_segments q' = num_segments (ring s) →
  num_receivers q' = num_receivers (ring s) →
  pool_inv (mkSystem q' pc (<[k:=mkThread h' b true]> (receivers s))).
Proof.
  intros [Hpool Hsome Hcap Hr] Hk Hlive Hsegs Hrecv.
  pose proof (count_insert live _ k t (mkThread h' b true) Hk) as Hcount.
  simpl in Hcount. rewrite Hlive in Hcount.
  constructor; simpl; rewrite ?length_insert; try congruence.
  rewrite Hrecv, Hr. f_equal. lia.
Qed.

Lemma pool_inv_step d s s' : pool_inv s → step d s s' → pool_inv s'.
Proof.
  intros Hinv Hstep.
  destruct Hstep as
    [s data ts w q' Hpc Hsel
    |s e q' Hpc Hsel
    |s w data ts q' Hpc Hcopy
    |s w q' Hpc Hpub
    |s sd q' Hpc Hfree
    |s k t code h' q' Hk Hlive _ Hstart
    |s k t code q' Hk Hlive _ Hend
    |s k t h' error q' Hk Hlive Hnew
    |s k t q' Hk Hlive Hdrop].
  - apply send_select_effect in Hsel as [_ [(_ & _ & ->)|(_ & _ & ->)]];
      destruct Hinv; constructor; simpl; try done; by case_decide.
  - apply send_select_effect in Hsel as [_ [(_ & _ & ->)|(_ & _ & ->)]];
      destruct Hinv; constructor; simpl; try done; by case_decide.
  - apply send_copy_effect in Hcopy as ->. by destruct Hinv.
  - apply send_publish_effect in Hpub as [_ ->]. by destruct Hinv.
  - apply free_sender_effect in Hfree as [_ [[_ ->]|[_ ->]]];
      by destruct Hinv.
  - apply start_recv_effect in Hstart
      as [_ [(_ & _ & _ & ->)|(_ & _ & _ & _ & ->)]];
      by eapply pool_inv_update.
  - apply end_recv_effect in Hend as (_ & _ & i & _ & _ & ->).
    by eapply pool_inv_update.
  - pose proof (count_le_length live (receivers s)) as Hbound.
    destruct Hinv as [Hpool Hsome Hcap Hr].
    apply new_receiver_effect in Hnew
      as (_ & _ & [(_ & -> & ->)|(Hroom & -> & ->)]).
    + by rewrite decide_False.
    + rewrite decide_True by done.
      constructor; simpl; rewrite ?length_app, ?count_app; simpl; try lia.
      rewrite Hr. unfold MAX_SEGMENTS in *. rewrite u8_small by lia. lia.
  - pose proof (count_le_length live (receivers s)) as Hbound.
    pose proof (count_lookup live _ _ _ Hk Hlive) as Hpos.
    pose proof (count_insert live _ k t
                  (mkThread (handle t) (borrowing t) false) Hk) as Hcount.
    simpl in Hcount. rewrite Hlive in Hcount.
    destruct Hinv as [Hpool Hsome Hcap Hr].
    assert (u8 (num_receivers (ring s) - 1)
            = Z.of_nat (count live
                          (<[k:=mkThread (handle t) (borrowing t) false]>
                             (receivers s)))) as Hr'.
    { rewrite Hr. unfold MAX_SEGMENTS in *. rewrite u8_small by lia. lia. }
    apply drop_recv_effect in Hdrop as [_ [(_ & _ & ->)| ->]];
      constructor; simpl; rewrite ?length_insert; done.
Qed.

Lemma pool_inv_reachable d bufsize s : reachable d bufsize s → pool_inv s.
Proof.
  induction 1 as [|s s' _ IH Hstep]; [apply pool_inv_init|].
  by eapply pool_inv_step.
Qed.

End Pool.

(** ** Safety of the two-phase send *)

Section Safety.

Local Ltac evaluate := try (intros _); lazy; reflexivity.

Lemma step_to_system_borrowed d : step d (initial_system 4) system_borrowed.
Proof.
  apply (step_start_recv d (initial_system 4) 0
           (mkThread the_receiver false true) 0%Z handle_borrowing
           ring_borrowed); evaluate.
Qed.

Lemma step_to_system_copying d : step d system_borrowed system_copying.
Proof.
  apply (step_send_select d system_borrowed frame_dead_beef 100%Z 2
           (set_prev_written_block 0 ring_borrowed)); evaluate.
Qed.

Lemma step_to_system_copied d : step d system_copying system_copied.
Proof.
  apply (step_send_copy d system_copying 2 frame_dead_beef 100%Z
           (ring system_copied)); evaluate.
Qed.

Lemma step_to_system_sent d : step d system_copied system_sent.
Proof.
  apply (step_send_publish d system_copied 2 ring_sent); evaluate.
Qed.

Lemma step_to_system_cloned d : step d (initial_system 4) system_cloned.
Proof.
  apply (step_new_receiver d (initial_system 4) 0
           (mkThread the_receiver false true) the_receiver 0%Z
           (ring system_cloned)); evaluate.
Qed.

Lemma reachable_system_sent d : reachable d 4 system_sent.
Proof.
  eapply reachable_step; [|apply step_to_system_sent].
  eapply reachable_step; [|apply step_to_system_copied].
  eapply reachable_step; [|apply step_to_system_copying].
  eapply reachable_step; [|apply step_to_system_borrowed].
  apply reachable_init.
Qed.

(** Without the discipline: the second [start_recv] of the same handle, the
    sender's fall back on [last_written_block], the third [start_recv], and
    the copy. *)
Lemma step_to_system_second_borrow :
  step AnyOrder system_sent system_second_borrow.
Proof.
  apply (step_start_recv AnyOrder system_sent 0
           (mkThread handle_borrowing true true) 0%Z handle_second_borrow
           ring_second_borrow); try discriminate; evaluate.
Qed.

Lemma step_to_system_conflating :
  step AnyOrder system_second_borrow system_conflating.
Proof.
  apply (step_send_select AnyOrder system_second_borrow (frame_of Byte.x0a)
           101%Z 2 (set_flags FLAG_CONFLATION ring_second_borrow)); evaluate.
Qed.

Lemma step_to_system_aliased : step AnyOrder system_conflating system_aliased.
Proof.
  apply (step_start_recv AnyOrder system_conflating 0
           (mkThread handle_second_borrow true true) 0%Z handle_aliased
           ring_aliased); try discriminate; evaluate.
Qed.

Lemma step_to_system_overwritten :
  step AnyOrder system_aliased system_overwritten.
Proof.
  apply (step_send_copy AnyOrder system_aliased 2 (frame_of Byte.x0a) 101%Z
           (ring system_overwritten)); evaluate.
Qed.

(** C1, as worded, fails.  Among all sequences of operations there is one
    in which the handle calls [start_recv] three times and never
    [end_recv]; it reaches a state where segment 2 is both the sender's
    write target and borrowed, and the copy that follows replaces the
    payload the receiver is looking at. *)
Lemma aliased_write_in_any_order :
  reachable AnyOrder 4 system_aliased
  ∧ write_target system_aliased = Some 2
  ∧ (0 < num_borrows (ring system_aliased) !!! 2%nat)%Z
  ∧ holds_borrow 0 system_aliased
  ∧ held_through AnyOrder 0 system_aliased system_overwritten
  ∧ borrowed_payload (ring system_aliased) handle_aliased
    = Some (SegBytes frame_dead_beef)
  ∧ borrowed_payload (ring system_overwritten) handle_aliased
    = Some (SegBytes (frame_of Byte.x0a)).
Proof.
  assert (holds_borrow 0 system_aliased) as Hholds
    by (eexists; repeat split; reflexivity).
  split.
  { eapply reachable_step; [|apply step_to_system_aliased].
    eapply reachable_step; [|apply step_to_system_conflating].
    eapply reachable_step; [|apply step_to_system_second_borrow].
    apply reachable_system_sent. }
  split; [reflexivity|]. split; [reflexivity|]. split; [done|].
  split; [|split; reflexivity].
  eapply held_step; [by apply held_here|apply step_to_system_overwritten|].
  eexists. repeat split; reflexivity.
Qed.

(** C1, amended.  When every handle calls [start_recv] and [end_recv] in
    turn, then in every state the running system can reach the segment the
    sender is writing has no borrow on it; the copy of [send] changes no
    borrowed segment; and a receiver that keeps its borrow sees the same
    payload through its pointer for as long as it keeps it. *)
Theorem no_aliased_write (bufsize : nat) (s : System) :
  reachable Alternating bufsize s →
  (∀ i, write_target s = Some i → ¬ (0 < num_borrows (ring s) !!! i)%Z)
  ∧ (∀ w data ts q' i,
       sender_at s = SenderCopying w data ts →
       send_copy w data ts (ring s) = Returns (tt, q') →
       (0 < num_borrows (ring s) !!! i)%Z →
       segments q' !! i = segments (ring s) !! i
       ∧ timestamps q' !! i = timestamps (ring s) !! i)
  ∧ (∀ k s', held_through Alternating k s s' →
       ∃ t t', receivers s !! k = Some t ∧ receivers s' !! k = Some t'
               ∧ live t' = true ∧ borrowing t' = true
               ∧ handle t' = handle t
               ∧ borrowed_payload (ring s') (handle t')
                 = borrowed_payload (ring s) (handle t)).
Proof.
  intros Hreach. apply sys_inv_reachable in Hreach as Hinv.
  split; [|split].
  - intros i Hi. destruct (inv_target _ Hinv i Hi) as (_ & _ & ->). lia.
  - intros w data ts q' i. by apply send_copy_spares_borrowed.
  - intros k s'. by apply held_through_payload.
Qed.

Lemma no_aliased_write_witness :
  reachable Alternating 4 system_copying
  ∧ write_target system_copying = Some 2
  ∧ ¬ (0 < num_borrows (ring system_copying) !!! 2%nat)%Z
  ∧ held_through Alternating 0 system_copying system_copied
  ∧ borrowed_payload (ring system_copied) handle_borrowing
    = borrowed_payload (ring system_copying) handle_borrowing.
Proof.
  assert (reachable Alternating 4 system_copying) as Hreach.
  { eapply reachable_step; [|apply step_to_system_copying].
    eapply reachable_step; [|apply step_to_system_borrowed].
    apply reachable_init. }
  assert (held_through Alternating 0 system_copying system_copied) as Hheld.
  { eapply held_step; [|apply step_to_system_copied|].
    - apply held_here. eexists. repeat split; reflexivity.
    - eexists. repeat split; reflexivity. }
  destruct (no_aliased_write 4 system_copying Hreach)
    as (Htarget & _ & Hpayload).
  split; [exact Hreach|]. split; [reflexivity|].
  split; [apply Htarget; reflexivity|].
  split; [exact Hheld|].
  destruct (Hpayload 0 system_copied Hheld)
    as (t & t' & Ht & Ht' & _ & _ & _ & Hsame).
  injection Ht as <-. injection Ht' as <-. exact Hsame.
Defined.

(** C8.  After [new_ringq] and in every state reached from it by the
    operations — [send], [start_recv], [end_recv], the clone and the two
    drops, in any order on the live handles — the ring has at least
    [max(3, num_receivers + 2)] segments. *)
Theorem pool_sufficiency (d : discipline) (bufsize : nat) (s : System) :
  reachable d bufsize s →
  (Z.max 3 (num_receivers (ring s) + 2)
   ≤ Z.of_nat (num_segments (ring s)))%Z
  ∧ (num_receivers (ring s) + 2 ≤ Z.of_nat (num_segments (ring s)))%Z.
Proof.
  intros Hreach. apply pool_inv_reachable in Hreach as [Hpool Hsome _ Hr].
  pose proof (count_le_length live (receivers s)).
  rewrite Hr. lia.
Qed.

Lemma pool_sufficiency_witness :
  reachable AnyOrder 4 system_cloned
  ∧ (Z.max 3 (num_receivers (ring system_cloned) + 2)
     ≤ Z.of_nat (num_segments (ring system_cloned)))%Z.
Proof.
  assert (reachable AnyOrder 4 system_cloned) as Hreach.
  { eapply reachable_step; [|apply step_to_system_cloned].
    apply reachable_init. }
  split; [exact Hreach|].
  exact (proj1 (pool_sufficiency AnyOrder 4 system_cloned Hreach)).
Defined.

End Safety.

(** ** Single calls on any ring *)

Section Calls.

Implicit Types (q : Inner) (h : Receiver) (sd : Sender).

Local Open Scope Z_scope.

(** *** Flag bits *)

Lemma conflation_set fl :
  Z.land (Z.lor fl FLAG_CONFLATION) FLAG_CONFLATION ≠ 0.
Proof.
  rewrite Z.land_lor_distr_l. unfold FLAG_CONFLATION. simpl.
  intros Hzero. apply Z.lor_eq_0_iff in Hzero as [_ Hone]. discriminate.
Qed.

Lemma no_sender_set fl :
  Z.land (Z.lor fl FLAG_NO_SENDER) FLAG_NO_SENDER ≠ 0.
Proof.
  rewrite Z.land_lor_distr_l. unfold FLAG_NO_SENDER. simpl.
  intros Hzero. apply Z.lor_eq_0_iff in Hzero as [_ Htwo]. discriminate.
Qed.

Lemma no_sender_kept_by_set fl :
  Z.land (Z.lor fl FLAG_CONFLATION) FLAG_NO_SENDER
  = Z.land fl FLAG_NO_SENDER.
Proof.
  rewrite Z.land_lor_distr_l. unfold FLAG_NO_SENDER, FLAG_CONFLATION.
  simpl. by rewrite Z.lor_0_r.
Qed.

Lemma no_sender_kept_by_clear fl :
  Z.land (u8 (Z.land fl (Z.lnot FLAG_CONFLATION))) FLAG_NO_SENDER
  = Z.land fl FLAG_NO_SENDER.
Proof.
  unfold u8. change 256 with (2 ^ 8).
  rewrite <- Z.land_ones by lia.
  by rewrite <- !Z.land_assoc.
Qed.

(** *** What each call returns *)

Local Ltac unfold_ops :=
  unfold send, send_select, send_copy, send_publish, free_sender, start_recv,
    end_recv, new_receiver, _new_segment, drop_recv, free_ringq,
    mbind, RingM_bind, mret, RingM_ret, get, modify, undefined,
    pthread_mutex_lock, pthread_mutex_unlock.

(** The ring after the first critical section of a [send] that goes on. *)
Lemma send_select_runs q :
  lock q = Unlocked → num_receivers q ≠ 0 →
  send_select q
  = Returns (inr (_get_free_writer q),
             if decide (_get_free_writer q = last_written_block q)
             then set_flags (Z.lor (flags q) FLAG_CONFLATION) q
             else set_prev_written_block (last_written_block q) q).
Proof.
  intros Hlock Hrecv.
  destruct (send_select q) as [[r q']| |] eqn:Hrun.
  - apply send_select_effect in Hrun as [_ [(? & _)|(_ & -> & ->)]]; done.
  - exfalso. revert Hrun. unfold_ops. rewrite Hlock. simpl.
    repeat case_decide; simpl; discriminate.
  - exfalso. revert Hrun. unfold_ops. rewrite Hlock. simpl.
    repeat case_decide; simpl; discriminate.
Qed.

Lemma send_copy_runs w data ts q :
  is_buffer (segments q !!! w) = true →
  (bufsize q ≤ length data)%nat →
  send_copy w data ts q
  = Returns (tt,
             set_timestamps (<[w:=ts]> (timestamps q))
               (set_segments
                  (<[w:=SegBytes (take (bufsize q) data)]> (segments q)) q)).
Proof.
  intros Hbuf Hlen. unfold_ops.
  rewrite list_lookup_total_alt in Hbuf.
  destruct (segments q !! w) as [[]|]; simpl in Hbuf; try discriminate;
    by rewrite decide_True.
Qed.

Lemma send_publish_runs w q :
  lock q = Unlocked →
  send_publish w q
  = Returns (tt,
             set_flags (u8 (Z.land (flags q) (Z.lnot FLAG_CONFLATION)))
               (set_last_written_block w q)).
Proof.
  intros Hlock. destruct q; simpl in *; subst. reflexivity.
Qed.

Lemma start_recv_runs h q :
  lock q = Unlocked → flag_set FLAG_NO_SENDER q = false →
  (_get_recv_index q < MAX_SEGMENTS)%nat →
  start_recv h q
  = Returns ((0,
              {| receiver_bufsize := receiver_bufsize h;
                 index := Some (_get_recv_index q);
                 data_ptr := match segments q !!! _get_recv_index q with
                             | SegNull => None
                             | _ => Some (_get_recv_index q)
                             end;
                 timestamp := Some (timestamps q !!! _get_recv_index q) |}),
             set_num_borrows
               (<[_get_recv_index q:=
                    u8 (num_borrows q !!! _get_recv_index q + 1)]>
                  (num_borrows q)) q).
Proof.
  intros Hlock Hopen Hidx. destruct q as [lk sg tm nb ns bs lw pw nr fl].
  simpl in Hlock. subst lk. revert Hopen Hidx.
  unfold_ops. unfold _get_recv_index, flag_set. simpl.
  intros -> Hidx. simpl. by rewrite decide_True.
Qed.

Lemma start_recv_closed h q :
  lock q = Unlocked → flag_set FLAG_NO_SENDER q = true →
  start_recv h q = Returns ((SENDER_CLOSED, h), q).
Proof.
  intros Hlock Hclosed. destruct q as [lk sg tm nb ns bs lw pw nr fl].
  simpl in Hlock. subst lk. revert Hclosed.
  unfold_ops. unfold flag_set. simpl. by intros ->.
Qed.

Lemma end_recv_runs h q i :
  lock q = Unlocked → index h = Some i → (i < MAX_SEGMENTS)%nat →
  end_recv h q
  = Returns (0, set_num_borrows
                  (<[i:=u8 (num_borrows q !!! i - 1)]> (num_borrows q)) q).
Proof.
  intros Hlock Hidx Hi. destruct q as [lk sg tm nb ns bs lw pw nr fl].
  simpl in Hlock. subst lk.
  unfold_ops. simpl. rewrite Hidx. by rewrite decide_True.
Qed.

Lemma free_sender_runs sd q :
  lock q = Unlocked →
  free_sender sd q
  = Returns (tt,
             if decide (num_receivers q = 0)
             then set_lock Destroyed
                    (set_segments
                       (free_buffers (num_segments q) (segments q))
                       (set_flags (Z.lor (flags q) FLAG_NO_SENDER) q))
             else set_flags (Z.lor (flags q) FLAG_NO_SENDER) q).
Proof.
  intros Hlock. destruct q as [lk sg tm nb ns bs lw pw nr fl].
  simpl in Hlock. subst lk.
  unfold_ops. simpl. by case_decide.
Qed.


(** The whole of [send]: refused with the mutex kept, or carried through. *)
Lemma send_effect sd data ts q e q' :
  send sd data ts q = Returns (e, q') →
  lock q = Unlocked
  ∧ ((num_receivers q = 0 ∧ e = NO_RECEIVERS ∧ q' = set_lock Locked q)
     ∨ (num_receivers q ≠ 0 ∧ e = 0
        ∧ (bufsize q ≤ length data)%nat
        ∧ ∃ q1,
            q1 = (if decide (_get_free_writer q = last_written_block q)
                  then set_flags (Z.lor (flags q) FLAG_CONFLATION) q
                  else set_prev_written_block (last_written_block q) q)
            ∧ q' = set_flags (u8 (Z.land (flags q1) (Z.lnot FLAG_CONFLATION)))
                     (set_last_written_block (_get_free_writer q)
                        (set_timestamps
                           (<[_get_free_writer q:=ts]> (timestamps q))
                           (set_segments
                              (<[_get_free_writer q:=
                                   SegBytes (take (bufsize q) data)]>
                                 (segments q)) q1))))).
Proof.
  unfold send, mbind, RingM_bind.
  destruct (send_select q) as [[r q1]| |] eqn:Hsel; try discriminate.
  apply send_select_effect in Hsel
    as [Hlock [(Hnone & -> & ->)|(Hsome & -> & Hq1)]].
  - intros [= <- <-]. split; [done|]. by left.
  - destruct (send_copy (_get_free_writer q) data ts q1)
      as [[[] q2]| |] eqn:Hcopy; try discriminate.
    assert (bufsize q1 ≤ length data)%nat as Hlen.
    { revert Hcopy. unfold send_copy, mbind, RingM_bind, get, undefined.
      simpl.
      destruct (segments q1 !! _get_free_writer q) as [[]|];
        try discriminate;
        (destruct (decide (bufsize q1 ≤ length data)%nat);
         [done|simpl; discriminate]). }
    apply send_copy_effect in Hcopy as ->.
    assert (lock q1 = Unlocked ∧ bufsize q1 = bufsize q
            ∧ segments q1 = segments q ∧ timestamps q1 = timestamps q)
      as (Hlock1 & Hbs & Hsg & Htm) by (subst q1; by case_decide).
    rewrite send_publish_runs by done.
    intros [= <- <-]. split; [done|]. right.
    split; [done|]. split; [done|]. split; [by rewrite <- Hbs|].
    exists q1. split; [done|]. simpl. rewrite Hbs, Hsg, Htm. done.
Qed.

End Calls.

(** ** Well-formed rings stay well-formed *)

Section WellFormed.

Implicit Types (q : Inner) (h : Receiver) (sd : Sender).

Lemma get_free_writer_active q :
  last_written_block q < num_segments q →
  _get_free_writer q < num_segments q.
Proof.
  intros Hlast.
  destruct (get_free_writer_cases q) as [[-> _]|(_ & Hw & _)]; done.
Qed.

Lemma ring_ok_init bufsize : ring_ok (init_ringq bufsize).
Proof.
  constructor; simpl; try done; try (unfold MAX_SEGMENTS; lia).
  intros [|[|[|i]]] Hi; simpl; try done. lia.
Qed.

Lemma ring_ok_send sd data ts q e q' :
  ring_ok q → send sd data ts q = Returns (e, q') → ring_ok q'.
Proof.
  intros Hok Hsend.
  pose proof (get_free_writer_active q (ok_last _ Hok)) as Hw.
  destruct Hok as [Hsl Htl Hbl Hcap Hlast Hprev Hbuf].
  apply send_effect in Hsend
    as [_ [(_ & _ & ->)|(_ & _ & _ & q1 & Hq1 & ->)]].
  { by constructor. }
  assert (num_segments q1 = num_segments q
          ∧ prev_written_block q1 < num_segments q
          ∧ num_borrows q1 = num_borrows q) as (Hns & Hprev1 & Hnb)
    by (subst q1; by case_decide).
  clear Hq1.
  constructor; simpl; rewrite ?length_insert, ?Hns, ?Hnb; try done.
  intros i Hi. rewrite list_lookup_total_insert.
  case_decide; [done|by apply Hbuf].
Qed.







End WellFormed.

(** ** What a send leaves behind *)

Section Send.

Implicit Types (q : Inner) (h : Receiver) (sd : Sender).

Local Open Scope Z_scope.

(** [send] carried through, with the ring it leaves. *)
Lemma send_runs sd data ts q :
  ring_ok q → lock q = Unlocked → num_receivers q ≠ 0 →
  (bufsize q ≤ length data)%nat →
  ∃ q', send sd data ts q = Returns (0, q')
        ∧ ∃ q1,
            q1 = (if decide (_get_free_writer q = last_written_block q)
                  then set_flags (Z.lor (flags q) FLAG_CONFLATION) q
                  else set_prev_written_block (last_written_block q) q)
            ∧ q' = set_flags (u8 (Z.land (flags q1) (Z.lnot FLAG_CONFLATION)))
                     (set_last_written_block (_get_free_writer q)
                        (set_timestamps
                           (<[_get_free_writer q:=ts]> (timestamps q))
                           (set_segments
                              (<[_get_free_writer q:=
                                   SegBytes (take (bufsize q) data)]>
                                 (segments q)) q1))).
Proof.
  intros Hok Hlock Hrecv Hlen.
  pose proof (get_free_writer_active q (ok_last _ Hok)) as Hw.
  pose proof (ok_buffers _ Hok _ Hw) as Hbuf.
  set (q1 := if decide (_get_free_writer q = last_written_block q)
             then set_flags (Z.lor (flags q) FLAG_CONFLATION) q
             else set_prev_written_block (last_written_block q) q).
  assert (lock q1 = Unlocked ∧ bufsize q1 = bufsize q
          ∧ segments q1 = segments q ∧ timestamps q1 = timestamps q)
    as (Hlock1 & Hbs & Hsg & Htm) by (subst q1; by case_decide).
  eexists. split; [|exists q1; split; reflexivity].
  unfold send, mbind, RingM_bind.
  rewrite send_select_runs by done. fold q1.
  rewrite send_copy_runs by (by rewrite ?Hsg, ?Hbs).
  rewrite send_publish_runs by done.
  simpl. by rewrite Hbs, Hsg, Htm.
Qed.

(** What [send] leaves in the ring when it is carried through. *)
Lemma send_outcome sd data ts q :
  ring_ok q → lock q = Unlocked → num_receivers q ≠ 0 →
  (bufsize q ≤ length data)%nat →
  ∃ q', send sd data ts q = Returns (0, q')
        ∧ lock q' = Unlocked
        ∧ last_written_block q' = _get_free_writer q
        ∧ segments q' !! _get_free_writer q
          = Some (SegBytes (take (bufsize q) data))
        ∧ timestamps q' !! _get_free_writer q = Some ts
        ∧ flag_set FLAG_CONFLATION q' = false
        ∧ prev_written_block q'
          = (if decide (_get_free_writer q = last_written_block q)
             then prev_written_block q
             else last_written_block q)
        ∧ (∀ i, i ≠ _get_free_writer q →
                segments q' !! i = segments q !! i
                ∧ timestamps q' !! i = timestamps q !! i)
        ∧ num_borrows q' = num_borrows q
        ∧ num_segments q' = num_segments q
        ∧ num_receivers q' = num_receivers q
        ∧ bufsize q' = bufsize q.
Proof.
  intros Hok Hlock Hrecv Hlen.
  destruct (send_runs sd data ts q) as (q' & Hsend & q1 & Hq1 & ->);
    [done..|].
  pose proof (get_free_writer_active q (ok_last _ Hok)) as Hw.
  pose proof (ok_cap _ Hok) as Hcap.
  assert (lock q1 = Unlocked
          ∧ prev_written_block q1
            = (if decide (_get_free_writer q = last_written_block q)
               then prev_written_block q else last_written_block q)
          ∧ num_borrows q1 = num_borrows q
          ∧ num_segments q1 = num_segments q
          ∧ num_receivers q1 = num_receivers q
          ∧ bufsize q1 = bufsize q)
    as (Hlock1 & Hprev & Hnb & Hns & Hnr & Hbs)
    by (subst q1; by case_decide).
  clear Hq1.
  eexists. split; [exact Hsend|]. simpl.
  split; [done|]. split; [done|].
  split; [apply list_lookup_insert_eq;
          rewrite (ok_segments_length _ Hok); lia|].
  split; [apply list_lookup_insert_eq;
          rewrite (ok_timestamps_length _ Hok); lia|].
  split; [unfold flag_set; simpl; by rewrite conflation_cleared|].
  split; [done|].
  split; [|done].
  intros i Hi. by rewrite !list_lookup_insert_ne.
Qed.

(** X2.  On a well-formed ring with the mutex free, a receiver left and a
    frame of at least [bufsize] bytes, [send] returns 0 and releases the
    mutex; the segment [_get_free_writer] chose holds the first [bufsize]
    bytes of the frame and the timestamp and has become
    [last_written_block]; CONFLATION is clear; [prev_written_block] is the
    former [last_written_block] unless that very segment was rewritten; no
    other segment or timestamp and no counter has changed. *)
Theorem send_publishes_frame sd data ts q :
  ring_ok q → lock q = Unlocked → num_receivers q ≠ 0 →
  (bufsize q ≤ length data)%nat →
  ∃ q', send sd data ts q = Returns (0, q')
        ∧ lock q' = Unlocked
        ∧ last_written_block q' = _get_free_writer q
        ∧ segments q' !! _get_free_writer q
          = Some (SegBytes (take (bufsize q) data))
        ∧ timestamps q' !! _get_free_writer q = Some ts
        ∧ flag_set FLAG_CONFLATION q' = false
        ∧ prev_written_block q'
          = (if decide (_get_free_writer q = last_written_block q)
             then prev_written_block q
             else last_written_block q)
        ∧ (∀ i, i ≠ _get_free_writer q →
                segments q' !! i = segments q !! i
                ∧ timestamps q' !! i = timestamps q !! i)
        ∧ num_borrows q' = num_borrows q
        ∧ num_segments q' = num_segments q
        ∧ num_receivers q' = num_receivers q
        ∧ bufsize q' = bufsize q.
Proof. apply send_outcome. Qed.

Lemma send_publishes_frame_witness :
  ∃ q', send the_sender frame_dead_beef 100 fresh_ring = Returns (0, q')
        ∧ last_written_block q' = 1%nat
        ∧ segments q' !! 1%nat = Some (SegBytes frame_dead_beef).
Proof.
  destruct (send_publishes_frame the_sender frame_dead_beef 100 fresh_ring)
    as (q' & Hsend & _ & Hlast & Hseg & _).
  - apply ring_ok_init.
  - reflexivity.
  - discriminate.
  - simpl. lia.
  - exists q'. split; [exact Hsend|]. split; [exact Hlast|exact Hseg].
Defined.

End Send.

(** ** Flags, block indices and the mutex across the calls *)

Section Across.

Implicit Types (q : Inner) (h : Receiver) (sd : Sender).

Local Open Scope Z_scope.

(** X3.  When [prev_written_block] and [last_written_block] differ they
    still differ after a [send] that returned 0 — and after a [send] that
    had another segment than [last_written_block] to write they differ in
    any case; [start_recv], [end_recv], [new_receiver] and [free_sender]
    change neither index. *)
Theorem written_blocks_stay_distinct :
  (∀ sd data ts q q',
     send sd data ts q = Returns (0, q') →
     prev_written_block q ≠ last_written_block q
     ∨ _get_free_writer q ≠ last_written_block q →
     prev_written_block q' ≠ last_written_block q')
  ∧ (∀ h q code h' q',
       start_recv h q = Returns ((code, h'), q') →
       prev_written_block q' = prev_written_block q
       ∧ last_written_block q' = last_written_block q)
  ∧ (∀ h q code q',
       end_recv h q = Returns (code, q') →
       prev_written_block q' = prev_written_block q
       ∧ last_written_block q' = last_written_block q)
  ∧ (∀ h q h' error q',
       new_receiver h q = Returns ((h', error), q') →
       prev_written_block q' = prev_written_block q
       ∧ last_written_block q' = last_written_block q)
  ∧ (∀ sd q q',
       free_sender sd q = Returns (tt, q') →
       prev_written_block q' = prev_written_block q
       ∧ last_written_block q' = last_written_block q).
Proof.
  split; [|split; [|split; [|split]]].
  - intros sd data ts q q' Hsend Hdistinct.
    apply send_effect in Hsend
      as [_ [(_ & [=] & _)|(_ & _ & _ & q1 & -> & ->)]].
    simpl. case_decide as Hw; simpl; [|congruence].
    destruct Hdistinct; congruence.
  - intros h q code h' q' Hstart.
    by apply start_recv_effect in Hstart
      as [_ [(_ & _ & _ & ->)|(_ & _ & _ & _ & ->)]].
  - intros h q code q' Hend.
    by apply end_recv_effect in Hend as (_ & _ & i & _ & _ & ->).
  - intros h q h' error q' Hnew.
    by apply new_receiver_effect in Hnew
      as (_ & _ & [(_ & _ & ->)|(_ & _ & ->)]).
  - intros sd q q' Hfree.
    by apply free_sender_effect in Hfree as [_ [[_ ->]|[_ ->]]].
Qed.

Lemma written_blocks_stay_distinct_witness :
  prev_written_block ring_after_one_send
  ≠ last_written_block ring_after_one_send.
Proof.
  apply (proj1 written_blocks_stay_distinct the_sender frame_dead_beef 100
           fresh_ring ring_after_one_send).
  - reflexivity.
  - left. simpl. lia.
Defined.

Lemma send_keeps_no_sender sd data ts q e q' :
  send sd data ts q = Returns (e, q') →
  flag_set FLAG_NO_SENDER q' = flag_set FLAG_NO_SENDER q.
Proof.
  intros Hsend.
  apply send_effect in Hsend
    as [_ [(_ & _ & ->)|(_ & _ & _ & q1 & -> & ->)]]; [done|].
  unfold flag_set. simpl. rewrite no_sender_kept_by_clear.
  case_decide; simpl; [|done]. by rewrite no_sender_kept_by_set.
Qed.

(** X4.  No call but [free_sender] touches the NO_SENDER bit: [send],
    whether refused or carried through, [start_recv], [end_recv] and
    [new_receiver] leave it as they found it. *)
Theorem no_sender_bit_is_stable :
  (∀ sd data ts q e q',
     send sd data ts q = Returns (e, q') →
     flag_set FLAG_NO_SENDER q' = flag_set FLAG_NO_SENDER q)
  ∧ (∀ h q code h' q',
       start_recv h q = Returns ((code, h'), q') →
       flag_set FLAG_NO_SENDER q' = flag_set FLAG_NO_SENDER q)
  ∧ (∀ h q code q',
       end_recv h q = Returns (code, q') →
       flag_set FLAG_NO_SENDER q' = flag_set FLAG_NO_SENDER q)
  ∧ (∀ h q h' error q',
       new_receiver h q = Returns ((h', error), q') →
       flag_set FLAG_NO_SENDER q' = flag_set FLAG_NO_SENDER q).
Proof.
  split; [|split; [|split]].
  - apply send_keeps_no_sender.
  - intros h q code h' q' Hstart.
    by apply start_recv_effect in Hstart
      as [_ [(_ & _ & _ & ->)|(_ & _ & _ & _ & ->)]].
  - intros h q code q' Hend.
    by apply end_recv_effect in Hend as (_ & _ & i & _ & _ & ->).
  - intros h q h' error q' Hnew.
    by apply new_receiver_effect in Hnew
      as (_ & _ & [(_ & _ & ->)|(_ & _ & ->)]).
Qed.

Lemma no_sender_bit_is_stable_witness :
  flag_set FLAG_NO_SENDER ring_after_one_send
  = flag_set FLAG_NO_SENDER fresh_ring.
Proof.
  apply (proj1 no_sender_bit_is_stable the_sender frame_dead_beef 100
           fresh_ring 0 ring_after_one_send).
  reflexivity.
Defined.

(** X5.  While the mutex is held every call waits: [send], [free_sender],
    [start_recv], [end_recv] and [new_receiver] all block, whatever their
    arguments. *)
Theorem held_mutex_blocks_every_call q :
  lock q = Locked →
  (∀ sd data ts, send sd data ts q = Blocks)
  ∧ (∀ sd, free_sender sd q = Blocks)
  ∧ (∀ h, start_recv h q = Blocks)
  ∧ (∀ h, end_recv h q = Blocks)
  ∧ (∀ h, new_receiver h q = Blocks).
Proof.
  intros Hlock.
  unfold send, send_select, free_sender, start_recv, end_recv, new_receiver,
    mbind, RingM_bind, pthread_mutex_lock.
  rewrite Hlock. done.
Qed.

Lemma held_mutex_blocks_every_call_witness :
  start_recv the_receiver (set_lock Locked fresh_ring) = Blocks.
Proof.
  apply (held_mutex_blocks_every_call (set_lock Locked fresh_ring)).
  reflexivity.
Defined.

(** X6.  A call that returns found the mutex free, and leaves it free —
    with two exceptions: a refused [send] leaves it locked, and the
    [free_sender] of the last owner leaves it destroyed. *)
Theorem returning_calls_release_the_mutex :
  (∀ sd data ts q e q',
     send sd data ts q = Returns (e, q') →
     lock q = Unlocked
     ∧ lock q' = (if decide (e = 0) then Unlocked else Locked))
  ∧ (∀ sd q q',
       free_sender sd q = Returns (tt, q') →
       lock q = Unlocked
       ∧ lock q' = (if decide (num_receivers q = 0)
                    then Destroyed else Unlocked))
  ∧ (∀ h q code h' q',
       start_recv h q = Returns ((code, h'), q') →
       lock q = Unlocked ∧ lock q' = Unlocked)
  ∧ (∀ h q code q',
       end_recv h q = Returns (code, q') →
       lock q = Unlocked ∧ lock q' = Unlocked)
  ∧ (∀ h q h' error q',
       new_receiver h q = Returns ((h', error), q') →
       lock q = Unlocked ∧ lock q' = Unlocked).
Proof.
  split; [|split; [|split; [|split]]].
  - intros sd data ts q e q' Hsend.
    apply send_effect in Hsend
      as [Hlock [(_ & -> & ->)|(_ & -> & _ & q1 & -> & ->)]];
      (split; [done|]).
    + reflexivity.
    + simpl. by case_decide.
  - intros sd q q' Hfree.
    apply free_sender_effect in Hfree as [Hlock [[Hnone ->]|[Hsome ->]]];
      (split; [done|]); simpl.
    + by rewrite decide_True.
    + by rewrite decide_False.
  - intros h q code h' q' Hstart.
    by apply start_recv_effect in Hstart
      as [Hlock [(_ & _ & _ & ->)|(_ & _ & _ & _ & ->)]].
  - intros h q code q' Hend.
    by apply end_recv_effect in Hend as (Hlock & _ & i & _ & _ & ->).
  - intros h q h' error q' Hnew.
    by apply new_receiver_effect in Hnew
      as (Hlock & _ & [(_ & _ & ->)|(_ & _ & ->)]).
Qed.

Lemma returning_calls_release_the_mutex_witness :
  lock fresh_ring = Unlocked ∧ lock ring_after_one_send = Unlocked.
Proof.
  apply (proj1 returning_calls_release_the_mutex the_sender frame_dead_beef
           100 fresh_ring 0 ring_after_one_send).
  reflexivity.
Defined.

End Across.

(** ** Borrowing and giving back *)

Section Borrow.

Implicit Types (q : Inner) (h : Receiver) (sd : Sender).

Local Open Scope Z_scope.

Lemma u8_up_down b : 0 ≤ b < 256 → u8 (u8 (b + 1) - 1) = b.
Proof.
  intros Hb. unfold u8.
  destruct (decide (b = 255)) as [->|Hne]; [reflexivity|].
  rewrite (Z.mod_small (b + 1)) by lia.
  rewrite Z.mod_small by lia. lia.
Qed.

Lemma recv_index_active q :
  ring_ok q → (_get_recv_index q < MAX_SEGMENTS)%nat.
Proof.
  intros Hok. pose proof (ok_cap _ Hok). pose proof (ok_last _ Hok).
  pose proof (ok_prev _ Hok).
  clear Hok.
  unfold _get_recv_index, MAX_SEGMENTS in *. destruct (flag_set _ _); lia.
Qed.

(** X7.  On a well-formed ring with the mutex free and the sender there,
    [start_recv] returns 0 with a borrow on the segment [_get_recv_index]
    names, whose counter goes up by one modulo 256, and hands out that
    segment's pointer and timestamp; the [end_recv] of the handle then
    returns 0 and puts the ring back exactly as it was. *)
Theorem borrow_and_give_back h q :
  ring_ok q → lock q = Unlocked → flag_set FLAG_NO_SENDER q = false →
  0 ≤ num_borrows q !!! _get_recv_index q < 256 →
  ∃ h' q',
    start_recv h q = Returns ((0, h'), q')
    ∧ index h' = Some (_get_recv_index q)
    ∧ data_ptr h' = Some (_get_recv_index q)
    ∧ timestamp h' = Some (timestamps q !!! _get_recv_index q)
    ∧ borrowed_payload q' h' = segments q !! _get_recv_index q
    ∧ num_borrows q' !!! _get_recv_index q
      = u8 (num_borrows q !!! _get_recv_index q + 1)
    ∧ (∀ j, j ≠ _get_recv_index q →
            num_borrows q' !!! j = num_borrows q !!! j)
    ∧ end_recv h' q' = Returns (0, q).
Proof.
  intros Hok Hlock Hopen Hrange.
  pose proof (recv_index_active q Hok) as Hidx.
  pose proof (ok_borrows_length _ Hok) as Hbl.
  assert (is_buffer (segments q !!! _get_recv_index q) = true) as Hbuf.
  { apply (ok_buffers _ Hok). pose proof (ok_last _ Hok).
    pose proof (ok_prev _ Hok).
    unfold _get_recv_index. by destruct (flag_set FLAG_CONFLATION q). }
  clear Hok.
  eexists _, _. split; [by apply start_recv_runs|].
  set (i := _get_recv_index q) in *. simpl.
  split; [done|].
  split; [by destruct (segments q !!! i)|].
  split; [done|].
  split; [unfold borrowed_payload; simpl; by destruct (segments q !!! i)|].
  split; [apply list_lookup_total_insert_eq; lia|].
  split; [intros j Hj; by apply list_lookup_total_insert_ne|].
  rewrite (end_recv_runs _ _ i) by done.
  do 2 f_equal. simpl.
  rewrite list_lookup_total_insert_eq by lia.
  rewrite list_insert_insert_eq, u8_up_down by done.
  rewrite list_insert_id
    by (rewrite list_lookup_lookup_total_lt by lia; done).
  by destruct q.
Qed.

Lemma borrow_and_give_back_witness :
  ∃ h' q', start_recv the_receiver ring_after_one_send = Returns ((0, h'), q')
           ∧ end_recv h' q' = Returns (0, ring_after_one_send).
Proof.
  destruct (borrow_and_give_back the_receiver ring_after_one_send)
    as (h' & q' & Hstart & _ & _ & _ & _ & _ & _ & Hend).
  - apply (ring_ok_send the_sender frame_dead_beef 100 fresh_ring 0
             ring_after_one_send); [apply ring_ok_init|reflexivity].
  - reflexivity.
  - reflexivity.
  - simpl. lia.
  - exists h', q'. split; [exact Hstart|exact Hend].
Defined.

(** X8.  [end_recv] on a segment whose counter is 0 — a give-back with no
    borrow before it — returns 0 and wraps the counter to 255; from then on
    [_get_free_writer] passes that segment over wherever
    [last_written_block] is. *)
Theorem end_recv_without_borrow_wraps h q i :
  lock q = Unlocked → index h = Some i →
  (i < length (num_borrows q))%nat → (i < MAX_SEGMENTS)%nat →
  num_borrows q !!! i = 0 →
  ∃ q', end_recv h q = Returns (0, q')
        ∧ num_borrows q' !!! i = 255
        ∧ ∀ last, _get_free_writer (set_last_written_block last q') = i →
                  last = i.
Proof.
  intros Hlock Hidx Hlen Hi Hzero.
  eexists. split; [by apply end_recv_runs|]. simpl.
  assert (<[i:=u8 (num_borrows q !!! i - 1)]> (num_borrows q) !!! i = 255)
    as Hwrapped.
  { rewrite list_lookup_total_insert_eq by done. by rewrite Hzero. }
  split; [done|].
  intros last Hchosen.
  destruct (get_free_writer_cases
              (set_last_written_block last
                 (set_num_borrows
                    (<[i:=u8 (num_borrows q !!! i - 1)]> (num_borrows q)) q)))
    as [[Hw _]|(_ & _ & Hfree & _)].
  - simpl in Hw. congruence.
  - rewrite Hchosen in Hfree. simpl in Hfree. congruence.
Qed.

Lemma end_recv_without_borrow_wraps_witness :
  ∃ q', end_recv handle_borrowing fresh_ring = Returns (0, q')
        ∧ num_borrows q' !!! 1%nat = 255.
Proof.
  destruct (end_recv_without_borrow_wraps handle_borrowing fresh_ring 1)
    as (q' & Hend & Hwrapped & _).
  - reflexivity.
  - reflexivity.
  - simpl. lia.
  - unfold MAX_SEGMENTS. lia.
  - reflexivity.
  - exists q'. split; [exact Hend|exact Hwrapped].
Defined.

End Borrow.

(** ** The end of the sender *)

Section Closing.

Implicit Types (q : Inner) (h : Receiver) (sd : Sender).

Local Open Scope Z_scope.

(** X9.  [free_sender] on a ring that still has receivers returns with the
    mutex free and NO_SENDER set and changes nothing else; every
    [start_recv] after it returns SENDER_CLOSED and leaves the ring and the
    handle as they are — no borrow is taken. *)
Theorem start_recv_after_free_sender sd q :
  lock q = Unlocked → num_receivers q ≠ 0 →
  ∃ q', free_sender sd q = Returns (tt, q')
        ∧ q' = set_flags (Z.lor (flags q) FLAG_NO_SENDER) q
        ∧ lock q' = Unlocked
        ∧ flag_set FLAG_NO_SENDER q' = true
        ∧ flag_set FLAG_CONFLATION q' = flag_set FLAG_CONFLATION q
        ∧ ∀ h, start_recv h q' = Returns ((SENDER_CLOSED, h), q').
Proof.
  intros Hlock Hsome.
  eexists. split; [by apply free_sender_runs|].
  rewrite decide_False by done.
  assert (flag_set FLAG_NO_SENDER
            (set_flags (Z.lor (flags q) FLAG_NO_SENDER) q) = true) as Hset.
  { unfold flag_set. simpl.
    apply negb_true_iff, Z.eqb_neq, no_sender_set. }
  split; [done|]. split; [done|]. split; [done|].
  split; [unfold flag_set; simpl; by rewrite conflation_kept|].
  intros h. by apply start_recv_closed.
Qed.

Lemma start_recv_after_free_sender_witness :
  ∃ q', free_sender the_sender fresh_ring = Returns (tt, q')
        ∧ start_recv the_receiver q'
          = Returns ((SENDER_CLOSED, the_receiver), q').
Proof.
  destruct (start_recv_after_free_sender the_sender fresh_ring)
    as (q' & Hfree & _ & _ & _ & _ & Hclosed).
  - reflexivity.
  - discriminate.
  - exists q'. split; [exact Hfree|apply Hclosed].
Defined.

Lemma free_buffers_none_left n (segs : list segment) i :
  (i < n)%nat → is_buffer (free_buffers n segs !!! i) = false.
Proof.
  intros Hi. unfold free_buffers.
  rewrite list_lookup_total_alt, list_lookup_imap.
  destruct (segs !! i) as [sg|]; simpl; [|done].
  rewrite decide_True by done. by destruct sg.
Qed.

(** X10.  [free_sender] on a ring with no receiver left tears it down: it
    returns with the mutex destroyed and no buffer left among the active
    segments, and any call made on the ring afterwards is undefined. *)
Theorem free_sender_of_last_owner sd q :
  lock q = Unlocked → num_receivers q = 0 →
  ∃ q', free_sender sd q = Returns (tt, q')
        ∧ lock q' = Destroyed
        ∧ (∀ i, (i < num_segments q)%nat →
                is_buffer (segments q' !!! i) = false)
        ∧ (∀ sd' data ts, send sd' data ts q' = Undefined)
        ∧ (∀ sd', free_sender sd' q' = Undefined)
        ∧ (∀ h, start_recv h q' = Undefined)
        ∧ (∀ h, end_recv h q' = Undefined)
        ∧ (∀ h, new_receiver h q' = Undefined).
Proof.
  intros Hlock Hnone.
  eexists. split; [by apply free_sender_runs|].
  rewrite decide_True by done. simpl.
  split; [done|].
  split; [intros i Hi; by apply free_buffers_none_left|].
  repeat split; intros; reflexivity.
Qed.

Lemma free_sender_of_last_owner_witness :
  ∃ q', free_sender the_sender ring_without_receivers = Returns (tt, q')
        ∧ lock q' = Destroyed
        ∧ start_recv the_receiver q' = Undefined.
Proof.
  destruct (free_sender_of_last_owner the_sender ring_without_receivers)
    as (q' & Hfree & Hlock & _ & _ & _ & Hrecv & _).
  - reflexivity.
  - reflexivity.
  - exists q'. split; [exact Hfree|]. split; [exact Hlock|apply Hrecv].
Defined.

End Closing.

(** ** What a receiver is given *)

Section Delivery.

Implicit Types (q : Inner) (h : Receiver) (sd : Sender).

Local Open Scope Z_scope.

(** X11.  Two sends, then [start_recv]: when the second send had another
    segment than [last_written_block] to write, the receiver is given the
    frame and the timestamp of the first send, not of the second. *)
Theorem recv_after_two_sends_gets_the_first sd h q dataA tsA dataB tsB :
  ring_ok q → lock q = Unlocked → num_receivers q ≠ 0 →
  flag_set FLAG_NO_SENDER q = false →
  (bufsize q ≤ length dataA)%nat → (bufsize q ≤ length dataB)%nat →
  (∀ q1, send sd dataA tsA q = Returns (0, q1) →
         _get_free_writer q1 ≠ last_written_block q1) →
  ∃ q1 q2 h' q3,
    send sd dataA tsA q = Returns (0, q1)
    ∧ send sd dataB tsB q1 = Returns (0, q2)
    ∧ start_recv h q2 = Returns ((0, h'), q3)
    ∧ index h' = Some (_get_free_writer q)
    ∧ timestamp h' = Some tsA
    ∧ borrowed_payload q3 h' = Some (SegBytes (take (bufsize q) dataA))
    ∧ last_written_block q3 ≠ _get_free_writer q.
Proof.
  intros Hok Hlock Hsome Hopen HlenA HlenB Hother.
  destruct (send_outcome sd dataA tsA q)
    as (q1 & HsendA & Hlock1 & Hlast1 & Hseg1 & Hts1 & Hflag1 & _ & _
        & Hnb1 & Hns1 & Hnr1 & Hbs1); [done..|].
  pose proof (ring_ok_send _ _ _ _ _ _ Hok HsendA) as Hok1.
  assert (flag_set FLAG_NO_SENDER q1 = false) as Hopen1.
  { rewrite <- Hopen. by eapply send_keeps_no_sender. }
  specialize (Hother q1 HsendA).
  destruct (send_outcome sd dataB tsB q1)
    as (q2 & HsendB & Hlock2 & Hlast2 & _ & _ & Hflag2 & Hprev2 & Hrest2
        & _); [done|done|congruence|congruence|].
  pose proof (ring_ok_send _ _ _ _ _ _ Hok1 HsendB) as Hok2.
  assert (flag_set FLAG_NO_SENDER q2 = false) as Hopen2.
  { rewrite <- Hopen1. by eapply send_keeps_no_sender. }
  rewrite decide_False in Hprev2 by done.
  assert (_get_recv_index q2 = _get_free_writer q) as Hidx.
  { unfold _get_recv_index. rewrite Hflag2. congruence. }
  destruct (Hrest2 (_get_free_writer q)) as [Hseg2 Hts2]; [congruence|].
  rewrite Hseg1 in Hseg2. rewrite Hts1 in Hts2.
  pose proof (recv_index_active q2 Hok2) as Hactive.
  exists q1, q2. eexists _, _.
  split; [done|]. split; [done|].
  split; [by apply start_recv_runs|].
  rewrite Hidx. simpl.
  rewrite !list_lookup_total_alt, Hseg2, Hts2. simpl.
  split; [done|]. split; [done|].
  split; [unfold borrowed_payload; simpl; done|].
  congruence.
Qed.

Lemma recv_after_two_sends_gets_the_first_witness :
  ∃ q1 q2 h' q3,
    send the_sender (frame_of Byte.x0a) 1 fresh_ring = Returns (0, q1)
    ∧ send the_sender (frame_of Byte.x0b) 2 q1 = Returns (0, q2)
    ∧ start_recv the_receiver q2 = Returns ((0, h'), q3)
    ∧ timestamp h' = Some 1
    ∧ borrowed_payload q3 h' = Some (SegBytes (frame_of Byte.x0a)).
Proof.
  destruct (recv_after_two_sends_gets_the_first the_sender the_receiver
              fresh_ring (frame_of Byte.x0a) 1 (frame_of Byte.x0b) 2)
    as (q1 & q2 & h' & q3 & HsendA & HsendB & Hstart & _ & Hts & Hpayload
        & _).
  - apply ring_ok_init.
  - reflexivity.
  - discriminate.
  - reflexivity.
  - simpl. lia.
  - simpl. lia.
  - intros q1 Hq1. lazy in Hq1. injection Hq1 as <-. lazy. discriminate.
  - exists q1, q2, h', q3. repeat split; assumption.
Defined.

End Delivery.

(** ** When every other segment is borrowed *)

Section Conflation.

Implicit Types (q : Inner) (h : Receiver) (sd : Sender).

Local Open Scope Z_scope.

(** X12.  When every active segment other than [last_written_block] is
    borrowed, the first critical section of [send] falls back on
    [last_written_block] and sets CONFLATION; a [start_recv] that runs
    before the copy is given that very segment, and the copy then replaces
    the payload the receiver points to. *)
Theorem conflating_send_hands_out_its_target h q data ts :
  ring_ok q → lock q = Unlocked → num_receivers q ≠ 0 →
  flag_set FLAG_NO_SENDER q = false →
  (bufsize q ≤ length data)%nat →
  (∀ j, (j < num_segments q)%nat → j ≠ last_written_block q →
        num_borrows q !!! j ≠ 0) →
  ∃ q1 h' q2 q3,
    send_select q = Returns (inr (last_written_block q), q1)
    ∧ flag_set FLAG_CONFLATION q1 = true
    ∧ start_recv h q1 = Returns ((0, h'), q2)
    ∧ index h' = Some (last_written_block q)
    ∧ borrowed_payload q2 h' = segments q !! last_written_block q
    ∧ send_copy (last_written_block q) data ts q2 = Returns (tt, q3)
    ∧ borrowed_payload q3 h' = Some (SegBytes (take (bufsize q) data)).
Proof.
  intros Hok Hlock Hsome Hopen Hlen Hbusy.
  assert (_get_free_writer q = last_written_block q) as Hw.
  { destruct (get_free_writer_cases q) as [[Hw _]|(Hne & Hlt & Hfree & _)];
      [done|]. by destruct (Hbusy _ Hlt Hne). }
  pose proof (ok_last _ Hok) as Hlast. pose proof (ok_cap _ Hok) as Hcap.
  pose proof (ok_buffers _ Hok _ Hlast) as Hbuf.
  pose proof (ok_segments_length _ Hok) as Hsl.
  clear Hok.
  set (q1 := set_flags (Z.lor (flags q) FLAG_CONFLATION) q).
  assert (flag_set FLAG_CONFLATION q1 = true) as Hflag.
  { unfold flag_set. simpl.
    apply negb_true_iff, Z.eqb_neq, conflation_set. }
  assert (flag_set FLAG_NO_SENDER q1 = false) as Hopen1.
  { rewrite <- Hopen. unfold flag_set. simpl.
    by rewrite no_sender_kept_by_set. }
  assert (_get_recv_index q1 = last_written_block q) as Hidx
    by (unfold _get_recv_index; by rewrite Hflag).
  exists q1. eexists _, _, _.
  split; [rewrite send_select_runs by done; by rewrite Hw, decide_True|].
  split; [done|].
  split; [apply start_recv_runs; [done|done|rewrite Hidx; lia]|].
  rewrite Hidx. simpl.
  assert (match segments q !!! last_written_block q with
          | SegNull => None
          | _ => Some (last_written_block q)
          end = Some (last_written_block q)) as Hptr
    by (by destruct (segments q !!! last_written_block q)).
  rewrite Hptr.
  split; [done|]. split; [done|].
  split; [by apply send_copy_runs|].
  unfold borrowed_payload. simpl.
  apply list_lookup_insert_eq. rewrite Hsl.
  unfold MAX_SEGMENTS in *. lia.
Qed.

Lemma conflating_send_hands_out_its_target_witness :
  ∃ q1 h' q2,
    send_select ring_second_borrow = Returns (inr 2%nat, q1)
    ∧ start_recv handle_second_borrow q1 = Returns ((0, h'), q2)
    ∧ index h' = Some 2%nat.
Proof.
  destruct (conflating_send_hands_out_its_target handle_second_borrow
              ring_second_borrow (frame_of Byte.x0a) 101)
    as (q1 & h' & q2 & q3 & Hsel & _ & Hstart & Hidx & _).
  - constructor; simpl; try reflexivity; try (unfold MAX_SEGMENTS; lia).
    intros [|[|[|i]]] Hi; simpl; try reflexivity. lia.
  - reflexivity.
  - discriminate.
  - reflexivity.
  - simpl. lia.
  - intros [|[|[|j]]] Hj Hne; simpl in *; try discriminate; lia.
  - exists q1, h', q2. split; [exact Hsel|]. split; [exact Hstart|exact Hidx].
Defined.

End Conflation.

(** ** Cloning a receiver *)

Section Clone.

Implicit Types (q : Inner) (h : Receiver) (sd : Sender).

Local Open Scope Z_scope.



End Clone.

(** ** Consequences for the running system *)

Section Running.

Implicit Types (s : System).

Lemma reachable_system_borrowed d : reachable d 4 system_borrowed.
Proof.
  eapply reachable_step; [|apply step_to_system_borrowed].
  apply reachable_init.
Qed.

(** X14.  When every handle calls [start_recv] and [end_recv] in turn, the
    sender never has to fall back: in every reachable state CONFLATION is
    clear, [_get_free_writer] names a segment other than
    [last_written_block] that nobody has borrowed, and [_get_recv_index]
    is [prev_written_block]. *)
Theorem conflation_never_arises (bufsize : nat) s :
  reachable Alternating bufsize s →
  flag_set FLAG_CONFLATION (ring s) = false
  ∧ _get_free_writer (ring s) ≠ last_written_block (ring s)
  ∧ _get_free_writer (ring s) < num_segments (ring s)
  ∧ num_borrows (ring s) !!! _get_free_writer (ring s) = 0%Z
  ∧ _get_recv_index (ring s) = prev_written_block (ring s).
Proof.
  intros Hreach. apply sys_inv_reachable in Hreach as Hinv.
  destruct (free_writer_is_free s Hinv) as (Hne & Hlt & Hfree).
  split; [by apply inv_no_conflation|].
  split; [done|]. split; [done|]. split; [done|].
  by apply recv_index_prev.
Qed.

Lemma conflation_never_arises_witness :
  reachable Alternating 4 system_borrowed
  ∧ _get_free_writer (ring system_borrowed)
    ≠ last_written_block (ring system_borrowed).
Proof.
  split; [apply reachable_system_borrowed|].
  apply (conflation_never_arises 4 system_borrowed).
  apply reachable_system_borrowed.
Defined.



End Running.
